(** * JSONFlow parser: natural language to workflow schema

    A shallow embedding of [NaturalLanguageToJSONFlowParser.py].

    The linguistic annotator ([nlp], spaCy in the source) is an external
    collaborator: it is a parameter of the development, a function from
    text to an annotated document.  Strings are ASCII strings; [lower] and
    [capitalize] are Python's [str.lower] and [str.capitalize] on ASCII
    text.

    The parser object owns two groups of mutable dictionaries: the schema
    under construction and the four step templates.  The source builds a
    step with [self.step_templates[k].copy()], a shallow copy: the outer
    one-key dictionary is new, the payload dictionary under that key is
    the template's own.  The model keeps this sharing: the payloads live
    in the parser's [step_templates] store and an element of [steps] is a
    reference into that store. *)

From Stdlib Require Import Ascii String.
From stdpp Require Import gmap strings list fin_maps.

Local Open Scope string_scope.
Local Open Scope list_scope.

(** ** Strings as Python uses them *)

Definition lower_ascii (c : ascii) : ascii :=
  let n := nat_of_ascii c in
  if Nat.leb 65 n && Nat.leb n 90 then ascii_of_nat (n + 32) else c.

Definition upper_ascii (c : ascii) : ascii :=
  let n := nat_of_ascii c in
  if Nat.leb 97 n && Nat.leb n 122 then ascii_of_nat (n - 32) else c.

(** [s.lower()] *)
Fixpoint lower (s : string) : string :=
  match s with
  | EmptyString => EmptyString
  | String c s' => String (lower_ascii c) (lower s')
  end.

(** [s.capitalize()]: first character upper case, the rest lower case. *)
Definition capitalize (s : string) : string :=
  match s with
  | EmptyString => EmptyString
  | String c s' => String (upper_ascii c) (lower s')
  end.

(** [sub in s] on strings: substring containment. *)
Fixpoint contains (sub s : string) : bool :=
  String.prefix sub s ||
  match s with
  | EmptyString => false
  | String _ s' => contains sub s'
  end.

(** [x in [..]] on a list of strings. *)
Definition str_in (x : string) (l : list string) : bool :=
  existsb (String.eqb x) l.

(** Truth value of a Python string: the empty string is false. *)
Definition truthy (s : string) : bool := negb (String.eqb s "").

(** Truth value of an [Optional[str]]: [None] and [""] are false. *)
Definition otruthy (o : option string) : bool :=
  match o with
  | Some s => truthy s
  | None => false
  end.

(** ** The annotator's output *)

(** A token: surface text, lemma, coarse part of speech, dependency label
    and the index of its syntactic head in the document ([token.head.i];
    the root is its own head). *)
Record Token := mkToken {
  text : string;
  lemma_ : string;
  pos_ : string;
  dep_ : string;
  head_i : nat
}.

(** A sentence ([Span]): its raw text and its tokens. *)
Record Span := mkSpan {
  span_text : string;
  span_tokens : list Token
}.

(** A document: all tokens, and the sentence segmentation [doc.sents]. *)
Record Doc := mkDoc {
  tokens : list Token;
  sents : list Span
}.

(** [token.head] for a token of document [doc]. *)
Definition head_of (doc : list Token) (t : Token) : Token :=
  nth (head_i t) doc t.

(** ** The schema and the step templates *)

(** A value of a step: a literal token string or the one-key dictionary
    [{"get": name}]; both are built new at each use and never updated. *)
Inductive ValueRef :=
| Lit (s : string)
| Get (name : string).

(** The values [_parse_context] stores in [context]: [""], [[]], [{}]. *)
Inductive CtxValue :=
| EmptyStr
| EmptyList
| EmptyDict.

Record InputDecl := mkInputDecl {
  type_ : string;
  description : string
}.

(** The four payload dictionaries [__init__] creates under
    [step_templates]; they are the only payload dictionaries a parser ever
    has.  An element of [steps] is the shallow copy [{k: payload_k}], that
    is, a reference to the payload of its kind. *)
Inductive StepRef :=
| RSet
| RAssert
| RLog
| RForEach.

Global Instance StepRef_eq_dec : EqDecision StepRef.
Proof. solve_decision. Defined.

Record SetPayload := mkSet {
  target : string;
  value : ValueRef
}.

Record ComparePayload := mkCompare {
  cmp_left : ValueRef;
  cmp_op : string;
  cmp_right : ValueRef
}.

(** ["condition": {"compare": {..}}, "message": ..] *)
Record AssertPayload := mkAssert {
  condition_compare : ComparePayload;
  assert_message : string
}.

Record LogPayload := mkLog {
  level : string;
  log_message : list ValueRef
}.

Record ForEachPayload := mkForEach {
  source : string;
  as_ : string;
  body : list StepRef
}.

(** [self.step_templates]: the current contents of the four payloads. *)
Record Templates := mkTemplates {
  tpl_set : SetPayload;
  tpl_assert : AssertPayload;
  tpl_log : LogPayload;
  tpl_forEach : ForEachPayload
}.

(** [self.schema] *)
Record Schema := mkSchema {
  function : string;
  inputs : gmap string InputDecl;
  schema_context : gmap string string;
  context : gmap string CtxValue;
  steps : list StepRef
}.

(** A [JSONFlowParser] instance. *)
Record Parser := mkParser {
  schema : Schema;
  step_templates : Templates
}.

Definition variable_types : list string :=
  ["string"; "int"; "dict"; "array"; "bool"].

Definition comparison_ops : list string :=
  ["=="; "!="; ">"; "<"; ">="; "<="; "in"].

(** [JSONFlowParser.__init__] *)
Definition __init__ : Parser :=
  {| schema := {| function := "";
                  inputs := ∅;
                  schema_context := ∅;
                  context := ∅;
                  steps := [] |};
     step_templates :=
       {| tpl_set := {| target := ""; value := Lit "" |};
          tpl_assert :=
            {| condition_compare :=
                 {| cmp_left := Lit ""; cmp_op := ""; cmp_right := Lit "" |};
               assert_message := "" |};
          tpl_log := {| level := "info"; log_message := [] |};
          tpl_forEach := {| source := ""; as_ := ""; body := [] |} |} |}.

(** *** Field updates *)

Definition set_function (p : Parser) (f : string) : Parser :=
  let s := schema p in
  {| schema := {| function := f; inputs := inputs s;
                  schema_context := schema_context s;
                  context := context s; steps := steps s |};
     step_templates := step_templates p |}.

(** [self.schema["schema"]["inputs"][n] = d] *)
Definition set_input (p : Parser) (n : string) (d : InputDecl) : Parser :=
  let s := schema p in
  {| schema := {| function := function s; inputs := <[n := d]> (inputs s);
                  schema_context := schema_context s;
                  context := context s; steps := steps s |};
     step_templates := step_templates p |}.

(** [self.schema["schema"]["context"][n] = ty; self.schema["context"][n] = v] *)
Definition set_context (p : Parser) (n ty : string) (v : CtxValue) : Parser :=
  let s := schema p in
  {| schema := {| function := function s; inputs := inputs s;
                  schema_context := <[n := ty]> (schema_context s);
                  context := <[n := v]> (context s); steps := steps s |};
     step_templates := step_templates p |}.

(** [self.schema["steps"].append(st)] *)
Definition append_step (p : Parser) (st : StepRef) : Parser :=
  let s := schema p in
  {| schema := {| function := function s; inputs := inputs s;
                  schema_context := schema_context s;
                  context := context s; steps := steps s ++ [st] |};
     step_templates := step_templates p |}.

Definition set_templates (p : Parser) (t : Templates) : Parser :=
  {| schema := schema p; step_templates := t |}.

(** [k in d] for a dictionary with string keys. *)
Definition has_key {V} (m : gmap string V) (k : string) : bool :=
  match m !! k with
  | Some _ => true
  | None => false
  end.

(** [{"get": x} if x in self.schema["schema"]["inputs"] else x] *)
Definition value_ref (p : Parser) (x : string) : ValueRef :=
  if has_key (inputs (schema p)) x then Get x else Lit x.

(** *** Reading the schema

    What a reader of the returned schema sees (for instance [json.dumps]):
    each element of [steps] followed to the payload it refers to. *)

Inductive Step :=
| SetStep (s : SetPayload)
| AssertStep (a : AssertPayload)
| LogStep (l : LogPayload)
| ForEachStep (f : ForEachPayload).

Definition deref (t : Templates) (r : StepRef) : Step :=
  match r with
  | RSet => SetStep (tpl_set t)
  | RAssert => AssertStep (tpl_assert t)
  | RLog => LogStep (tpl_log t)
  | RForEach => ForEachStep (tpl_forEach t)
  end.

Definition read_steps (p : Parser) : list Step :=
  map (deref (step_templates p)) (steps (schema p)).

Record FlowSchema := mkFlowSchema {
  fs_function : string;
  fs_inputs : gmap string InputDecl;
  fs_schema_context : gmap string string;
  fs_context : gmap string CtxValue;
  fs_steps : list Step
}.

Definition snapshot (p : Parser) : FlowSchema :=
  {| fs_function := function (schema p);
     fs_inputs := inputs (schema p);
     fs_schema_context := schema_context (schema p);
     fs_context := context (schema p);
     fs_steps := read_steps p |}.

(** The envelope [generate_jsonflow_from_text] returns.  Its ["schema"]
    entry is the parser's schema object; the payloads its steps refer to
    stay reachable through them. *)
Record Artifact := mkArtifact {
  artifact_id : string;
  title : string;
  contentType : string;
  artifact_schema : Parser
}.

(** ** The parser *)

Section Parser.

(** The module-level annotator [nlp]. *)
Variable nlp : string -> Doc.

(** [str(uuid.uuid4())]: the [n]-th identifier the process draws. *)
Variable uuid4 : nat -> string.

Definition is_function_verb (token : Token) : bool :=
  String.eqb (pos_ token) "VERB" &&
  str_in (lemma_ token) ["create"; "build"; "define"; "generate"].

(** The inner loop of [_generate_function_name]: returns at the first
    matching token of the sentence. *)
Fixpoint function_name_in_sent (toks : list Token) : option string :=
  match toks with
  | [] => None
  | token :: rest =>
      if is_function_verb token
      then Some (capitalize (text token) +:+ "Workflow")
      else function_name_in_sent rest
  end.

(** The outer loop over [doc.sents]. *)
Fixpoint function_name_in_sents (ss : list Span) : option string :=
  match ss with
  | [] => None
  | sent :: rest =>
      match function_name_in_sent (span_tokens sent) with
      | Some name => Some name
      | None => function_name_in_sents rest
      end
  end.

Definition _generate_function_name (doc : Doc) : string :=
  match function_name_in_sents (sents doc) with
  | Some name => name
  | None => "DefaultWorkflow"
  end.

(** *** [_parse_input] *)

Definition input_scan_step (doc : list Token)
    (st : option string * string * string) (token : Token)
    : option string * string * string :=
  let '(input_name, input_type, description) := st in
  if String.eqb (lower (text token)) "input" &&
     String.eqb (pos_ (head_of doc token)) "NOUN"
  then (Some (text (head_of doc token)), input_type, description)
  else if str_in (lower (text token)) variable_types
  then (input_name, lower (text token), description)
  else if String.eqb (dep_ token) "attr" || String.eqb (dep_ token) "dobj"
  then (input_name, input_type, text token)
  else st.

Definition input_scan (doc : list Token) : option string * string * string :=
  fold_left (input_scan_step doc) doc (None, "string", "").

Definition _parse_input (p : Parser) (sent : Span) : Parser :=
  let doc := tokens (nlp (span_text sent)) in
  let '(input_name, input_type, description) := input_scan doc in
  match input_name with
  | Some name =>
      if truthy name
      then set_input p name
             {| type_ := input_type;
                description := if truthy description then description
                               else "Input " +:+ name |}
      else p
  | None => p
  end.

(** *** [_parse_context] *)

Definition context_scan_step (doc : list Token)
    (st : option string * string) (token : Token) : option string * string :=
  let '(var_name, var_type) := st in
  if str_in (lower (text token)) ["variable"; "context"] &&
     String.eqb (pos_ (head_of doc token)) "NOUN"
  then (Some (text (head_of doc token)), var_type)
  else if str_in (lower (text token)) variable_types
  then (var_name, lower (text token))
  else st.

Definition context_scan (doc : list Token) : option string * string :=
  fold_left (context_scan_step doc) doc (None, "string").

(** ["" if var_type == "string" else [] if var_type == "array" else {}] *)
Definition context_default (var_type : string) : CtxValue :=
  if String.eqb var_type "string" then EmptyStr
  else if String.eqb var_type "array" then EmptyList
  else EmptyDict.

Definition _parse_context (p : Parser) (sent : Span) : Parser :=
  let doc := tokens (nlp (span_text sent)) in
  let '(var_name, var_type) := context_scan doc in
  match var_name with
  | Some name =>
      if truthy name
      then set_context p name var_type (context_default var_type)
      else p
  | None => p
  end.

(** *** [_parse_set_step] *)

Definition set_scan_step (doc : list Token)
    (st : option string * option string) (token : Token)
    : option string * option string :=
  let '(target, value) := st in
  if str_in (lower (text token)) ["set"; "assign"] &&
     String.eqb (pos_ (head_of doc token)) "NOUN"
  then (Some (text (head_of doc token)), value)
  else if String.eqb (dep_ token) "attr" || String.eqb (dep_ token) "dobj"
  then (target, Some (text token))
  else st.

Definition set_scan (doc : list Token) : option string * option string :=
  fold_left (set_scan_step doc) doc (None, None).

(** [step = self.step_templates["set"].copy()] gives a new outer
    dictionary around the template's payload; the two assignments through
    [step["set"]] update that payload. *)
Definition _parse_set_step (p : Parser) (sent : Span)
    : Parser * option StepRef :=
  let doc := tokens (nlp (span_text sent)) in
  let '(target, value) := set_scan doc in
  if otruthy target && otruthy value then
    match target, value with
    | Some tg, Some v =>
        let t := step_templates p in
        (set_templates p
           {| tpl_set := {| target := tg; value := value_ref p v |};
              tpl_assert := tpl_assert t;
              tpl_log := tpl_log t;
              tpl_forEach := tpl_forEach t |},
         Some RSet)
    | _, _ => (p, None)
    end
  else (p, None).

(** *** [_parse_assert_step] *)

Definition assert_scan_step (doc : list Token)
    (st : option string * option string * option string * option string)
    (token : Token)
    : option string * option string * option string * option string :=
  let '(condition, left_, op, right_) := st in
  if str_in (lower (text token)) ["if"; "check"]
  then (Some (text (head_of doc token)), left_, op, right_)
  else if String.eqb (dep_ token) "nsubj" &&
          match condition with
          | Some c => String.eqb (text (head_of doc token)) c
          | None => false
          end
  then (condition, Some (text token), op, right_)
  else if str_in (text token) comparison_ops
  then (condition, left_, Some (text token), right_)
  else if String.eqb (dep_ token) "attr" || String.eqb (dep_ token) "dobj"
  then (condition, left_, op, Some (text token))
  else st.

Definition assert_scan (doc : list Token)
    : option string * option string * option string * option string :=
  fold_left (assert_scan_step doc) doc (None, None, None, None).

Definition _parse_assert_step (p : Parser) (sent : Span)
    : Parser * option StepRef :=
  let doc := tokens (nlp (span_text sent)) in
  let '(_, left_, op, right_) := assert_scan doc in
  if otruthy left_ && otruthy op && otruthy right_ then
    match left_, op, right_ with
    | Some l, Some o, Some r =>
        let t := step_templates p in
        (set_templates p
           {| tpl_set := tpl_set t;
              tpl_assert :=
                {| condition_compare :=
                     {| cmp_left := value_ref p l;
                        cmp_op := o;
                        cmp_right := value_ref p r |};
                   assert_message :=
                     l +:+ " " +:+ o +:+ " " +:+ r +:+ " check failed" |};
              tpl_log := tpl_log t;
              tpl_forEach := tpl_forEach t |},
         Some RAssert)
    | _, _, _ => (p, None)
    end
  else (p, None).

(** *** [_parse_log_step] *)

Definition log_scan_step (message_parts : list string) (token : Token)
    : list string :=
  if str_in (dep_ token) ["nsubj"; "dobj"; "attr"]
  then message_parts ++ [text token]
  else message_parts.

Definition log_scan (doc : list Token) : list string :=
  fold_left log_scan_step doc [].

Definition _parse_log_step (p : Parser) (sent : Span)
    : Parser * option StepRef :=
  let doc := tokens (nlp (span_text sent)) in
  let message_parts := log_scan doc in
  match message_parts with
  | [] => (p, None)
  | _ :: _ =>
      let t := step_templates p in
      (set_templates p
         {| tpl_set := tpl_set t;
            tpl_assert := tpl_assert t;
            tpl_log := {| level := level (tpl_log t);
                          log_message := map (value_ref p) message_parts |};
            tpl_forEach := tpl_forEach t |},
       Some RLog)
  end.

(** *** [_parse_foreach_step] *)

Definition foreach_scan_step (doc : list Token)
    (st : option string * option string) (token : Token)
    : option string * option string :=
  let '(source_, iterator) := st in
  if str_in (lower (text token)) ["each"; "loop"] &&
     String.eqb (pos_ (head_of doc token)) "NOUN"
  then (Some (text (head_of doc token)), iterator)
  else if String.eqb (dep_ token) "nsubj" &&
          str_in (lower (text (head_of doc token))) ["each"; "loop"]
  then (source_, Some (text token))
  else st.

Definition foreach_scan (doc : list Token) : option string * option string :=
  fold_left (foreach_scan_step doc) doc (None, None).

Definition _parse_foreach_step (p : Parser) (sent : Span)
    : Parser * option StepRef :=
  let doc := tokens (nlp (span_text sent)) in
  let '(source_, iterator) := foreach_scan doc in
  if otruthy source_ && otruthy iterator then
    match source_, iterator with
    | Some src, Some it =>
        let t := step_templates p in
        (set_templates p
           {| tpl_set := tpl_set t;
              tpl_assert := tpl_assert t;
              tpl_log := tpl_log t;
              tpl_forEach := {| source := src; as_ := it; body := [] |} |},
         Some RForEach)
    | _, _ => (p, None)
    end
  else (p, None).

(** *** [_process_sentences] *)

(** [if current_step: self.schema["steps"].append(current_step)]; a step
    is a one-key dictionary, hence true. *)
Definition append_if_step (r : Parser * option StepRef) : Parser :=
  match r with
  | (p, Some current_step) => append_step p current_step
  | (p, None) => p
  end.

(** The body of the loop over [doc.sents]. *)
Definition process_sentence (p : Parser) (sent : Span) : Parser :=
  let t := lower (span_text sent) in
  if contains "input" t then _parse_input p sent
  else if contains "set" t || contains "assign" t
  then append_if_step (_parse_set_step p sent)
  else if contains "if" t || contains "check" t
  then append_if_step (_parse_assert_step p sent)
  else if contains "log" t || contains "print" t
  then append_if_step (_parse_log_step p sent)
  else if contains "for each" t || contains "loop" t
  then append_if_step (_parse_foreach_step p sent)
  else if contains "context" t || contains "variable" t
  then _parse_context p sent
  else p.

Definition _process_sentences (p : Parser) (doc : Doc) : Parser :=
  fold_left process_sentence (sents doc) p.

(** [parse] updates the parser in place and returns [self.schema]: the
    caller reads the result in the parser the call leaves behind. *)
Definition parse (p : Parser) (text_ : string) : Parser :=
  let doc := nlp text_ in
  let p1 := set_function p (_generate_function_name doc) in
  _process_sentences p1 doc.

(** [generate_jsonflow_from_text], run when [n] identifiers have been
    drawn so far; returns the envelope and the new count. *)
Definition generate_jsonflow_from_text (text_ : string) (n : nat)
    : Artifact * nat :=
  let parser := __init__ in
  let schema_ := parse parser text_ in
  ({| artifact_id := uuid4 n;
      title := "GeneratedJSONFlowSchema.json";
      contentType := "application/json";
      artifact_schema := schema_ |},
   S n).

End Parser.

(** ** The routing rule as the specification words it

    A priority table of cue phrases; the first row with a cue contained in
    the lower-cased sentence text names the extractor. *)

Inductive Route :=
| ToInput
| ToSet
| ToAssert
| ToLog
| ToForEach
| ToContext.

Definition cue_table : list (list string * Route) :=
  [ (["input"], ToInput);
    (["set"; "assign"], ToSet);
    (["if"; "check"], ToAssert);
    (["log"; "print"], ToLog);
    (["for each"; "loop"], ToForEach);
    (["context"; "variable"], ToContext) ].

Definition matches_row (sentence_text : string) (row : list string * Route)
    : bool :=
  existsb (fun cue => contains cue (lower sentence_text)) (fst row).

Definition classify (sentence_text : string) : option Route :=
  match find (matches_row sentence_text) cue_table with
  | Some row => Some (snd row)
  | None => None
  end.

Definition run_extractor (nlp : string -> Doc) (p : Parser) (sent : Span)
    (r : Route) : Parser :=
  match r with
  | ToInput => _parse_input nlp p sent
  | ToSet => append_if_step (_parse_set_step nlp p sent)
  | ToAssert => append_if_step (_parse_assert_step nlp p sent)
  | ToLog => append_if_step (_parse_log_step nlp p sent)
  | ToForEach => append_if_step (_parse_foreach_step nlp p sent)
  | ToContext => _parse_context nlp p sent
  end.

Definition dispatch (nlp : string -> Doc) (p : Parser) (sent : Span) : Parser :=
  match classify (span_text sent) with
  | Some r => run_extractor nlp p sent r
  | None => p
  end.

(** Whether the extractor of route [r] finds the components it requires in
    the sentence (the tests before each [return step] and before each
    dictionary write of the source). *)
Definition finds_structure (nlp : string -> Doc) (sent : Span) (r : Route)
    : bool :=
  let doc := tokens (nlp (span_text sent)) in
  match r with
  | ToInput => otruthy (fst (fst (input_scan doc)))
  | ToSet => otruthy (fst (set_scan doc)) && otruthy (snd (set_scan doc))
  | ToAssert =>
      let '(_, left_, op, right_) := assert_scan doc in
      otruthy left_ && otruthy op && otruthy right_
  | ToLog => match log_scan doc with [] => false | _ :: _ => true end
  | ToForEach =>
      otruthy (fst (foreach_scan doc)) && otruthy (snd (foreach_scan doc))
  | ToContext => otruthy (fst (context_scan doc))
  end.

(** The input name a sentence declares when [_process_sentences] reaches
    it: the sentence is routed to [_parse_input] and the scan finds a
    name. *)
Definition declared_input (nlp : string -> Doc) (sent : Span) : option string :=
  if contains "input" (lower (span_text sent)) then
    match fst (fst (input_scan (tokens (nlp (span_text sent))))) with
    | Some name => if truthy name then Some name else None
    | None => None
    end
  else None.


(** The parser as it stands when [parse], called on a new parser, has
    processed the sentences [pre] of the text and is about to process the
    next one. *)
Definition parser_after (nlp : string -> Doc) (text_ : string)
    (pre : list Span) : Parser :=
  fold_left (process_sentence nlp) pre
    (set_function __init__ (_generate_function_name (nlp text_))).

(** The four components the assert extractor looks for. *)
Definition is_cue (t : Token) : bool :=
  str_in (lower (text t)) ["if"; "check"].

Definition is_nsubj (t : Token) : bool := String.eqb (dep_ t) "nsubj".

Definition is_op (t : Token) : bool := str_in (text t) comparison_ops.

Definition is_object (t : Token) : bool :=
  String.eqb (dep_ t) "attr" || String.eqb (dep_ t) "dobj".

(** The four components occur somewhere in the sentence, in any order: a
    cue token, a nominal subject whose head has the surface of the cue's
    head, a comparison operator, an object. *)
Definition has_assert_components (doc : list Token) : bool :=
  existsb (fun cue =>
    is_cue cue &&
    existsb (fun subj =>
      is_nsubj subj &&
      String.eqb (text (head_of doc subj)) (text (head_of doc cue))) doc) doc
  && existsb is_op doc
  && existsb is_object doc.

(** A value slot is filled: it holds a non-empty token string, as a
    literal or as a reference. *)
Definition value_filled (v : ValueRef) : Prop :=
  match v with
  | Lit s => s <> ""
  | Get name => name <> ""
  end.

(** A step with every required field filled. *)
Definition fully_formed (st : Step) : Prop :=
  match st with
  | SetStep s => target s <> "" /\ value_filled (value s)
  | AssertStep a =>
      value_filled (cmp_left (condition_compare a)) /\
      In (cmp_op (condition_compare a)) comparison_ops /\
      value_filled (cmp_right (condition_compare a)) /\
      assert_message a <> ""
  | LogStep l => log_message l <> []
  | ForEachStep f => source f <> "" /\ as_ f <> ""
  end.

(** What an extractor call returned: nothing, leaving the parser as it
    was, or a step of kind [k] that reads as fully formed. *)
Definition nothing_or_fully_formed (p : Parser) (k : StepRef)
    (r : Parser * option StepRef) : Prop :=
  match r with
  | (p', None) => p' = p
  | (p', Some st) =>
      st = k /\ schema p' = schema p /\
      fully_formed (deref (step_templates p') st)
  end.

(** Every for-each step has an empty [body]. *)
Definition body_empty (st : Step) : Prop :=
  match st with
  | ForEachStep f => body f = []
  | _ => True
  end.

(** The variables of the scan loop of [_parse_assert_step]:
    [condition], [left], [op], [right]. *)
Definition AssertState : Type :=
  (option string * option string * option string * option string)%type.

(** A token naming a variable type explicitly. *)
Definition is_type_token (t : Token) : bool :=
  str_in (lower (text t)) variable_types.

(** ** What a sentence contributes *)

(** The step reference a sentence appends to [steps], if any: the sentence
    is routed to a step extractor and the extractor finds its
    components. *)
Definition sentence_step (nlp : string -> Doc) (sent : Span)
    : option StepRef :=
  match classify (span_text sent) with
  | Some ToSet => if finds_structure nlp sent ToSet then Some RSet else None
  | Some ToAssert =>
      if finds_structure nlp sent ToAssert then Some RAssert else None
  | Some ToLog => if finds_structure nlp sent ToLog then Some RLog else None
  | Some ToForEach =>
      if finds_structure nlp sent ToForEach then Some RForEach else None
  | _ => None
  end.

(** The sentence appends a step of kind [k]. *)
Definition yields (nlp : string -> Doc) (k : StepRef) (sent : Span) : bool :=
  bool_decide (sentence_step nlp sent = Some k).

(** The sentence is one [_process_sentences] passes over without effect:
    no cue, or a cue whose extractor does not find its components. *)
Definition is_skipped (nlp : string -> Doc) (sent : Span) : bool :=
  match classify (span_text sent) with
  | Some r => negb (finds_structure nlp sent r)
  | None => true
  end.

(** The entry a sentence writes into [inputs] when [_process_sentences]
    reaches it: the name and the declaration [_parse_input] builds. *)
Definition declared_entry (nlp : string -> Doc) (sent : Span)
    : option (string * InputDecl) :=
  if contains "input" (lower (span_text sent)) then
    let '(input_name, input_type, description_) :=
      input_scan (tokens (nlp (span_text sent))) in
    match input_name with
    | Some name =>
        if truthy name
        then Some (name,
                   {| type_ := input_type;
                      description := if truthy description_ then description_
                                     else "Input " +:+ name |})
        else None
    | None => None
    end
  else None.

(** The entry a sentence writes into the context declarations when
    [_process_sentences] reaches it: the name and the type. *)
Definition declared_context_entry (nlp : string -> Doc) (sent : Span)
    : option (string * string) :=
  match classify (span_text sent) with
  | Some ToContext =>
      let '(var_name, var_type) :=
        context_scan (tokens (nlp (span_text sent))) in
      match var_name with
      | Some name => if truthy name then Some (name, var_type) else None
      | None => None
      end
  | _ => None
  end.

(** The input names a step refers to through [{"get": name}] values. *)
Definition value_names (v : ValueRef) : list string :=
  match v with
  | Get name => [name]
  | Lit _ => []
  end.

Definition step_names (st : Step) : list string :=
  match st with
  | SetStep s => value_names (value s)
  | AssertStep a =>
      value_names (cmp_left (condition_compare a)) ++
      value_names (cmp_right (condition_compare a))
  | LogStep l => flat_map value_names (log_message l)
  | ForEachStep _ => []
  end.

(** The token surface a value was built from. *)
Definition surface (v : ValueRef) : string :=
  match v with
  | Lit s => s
  | Get name => name
  end.

(** The shape of a step of a schema: all required fields filled, the
    operator one of [comparison_ops], the assert message composed from the
    surfaces of the operands, the log level the template's "info". *)
Definition step_shape (st : Step) : Prop :=
  match st with
  | SetStep s => target s <> "" /\ surface (value s) <> ""
  | AssertStep a =>
      let c := condition_compare a in
      surface (cmp_left c) <> "" /\ In (cmp_op c) comparison_ops /\
      surface (cmp_right c) <> "" /\
      assert_message a =
        surface (cmp_left c) +:+ " " +:+ cmp_op c +:+ " " +:+
        surface (cmp_right c) +:+ " check failed"
  | LogStep l => level l = "info" /\ log_message l <> []
  | ForEachStep f => source f <> "" /\ as_ f <> "" /\ body f = []
  end.

(** A token the log extractor collects. *)
Definition is_log_part (t : Token) : bool :=
  str_in (dep_ t) ["nsubj"; "dobj"; "attr"].

(** A token the set extractor takes its target from: "set" or "assign",
    in any letter case, with a noun as head. *)
Definition is_set_cue (doc : list Token) (t : Token) : bool :=
  str_in (lower (text t)) ["set"; "assign"] &&
  String.eqb (pos_ (head_of doc t)) "NOUN".

(** A token the set extractor takes its value from: an object that is not
    a set cue. *)
Definition is_set_value (doc : list Token) (t : Token) : bool :=
  negb (is_set_cue doc t) && is_object t.

(** ** The process around the wrapper

    Two runs of [generate_jsonflow_from_text] happen in one process: the
    parser objects created so far stay where they are, and the identifier
    source moves on.  [objects] holds the [JSONFlowParser] instances in
    the order of their creation; an envelope refers to the schema of the
    instance it was made from. *)

Record Process := mkProcess {
  objects : list Parser;
  drawn : nat
}.

Record Envelope := mkEnvelope {
  envelope_id : string;
  envelope_title : string;
  envelope_contentType : string;
  envelope_schema : nat
}.

(** [JSONFlowParser()]: a new instance, and the reference to it. *)
Definition new_JSONFlowParser (w : Process) : nat * Process :=
  (length (objects w),
   {| objects := objects w ++ [__init__]; drawn := drawn w |}).

(** [parser.parse(text)] on the instance [parser] refers to; the returned
    schema is that instance's own. *)
Definition parse_object (nlp : string -> Doc) (parser : nat) (text_ : string)
    (w : Process) : Process :=
  match objects w !! parser with
  | Some p =>
      {| objects := <[parser := parse nlp p text_]> (objects w);
         drawn := drawn w |}
  | None => w
  end.

(** [str(uuid.uuid4())] *)
Definition draw_uuid4 (uuid4 : nat -> string) (w : Process)
    : string * Process :=
  (uuid4 (drawn w), {| objects := objects w; drawn := S (drawn w) |}).

(** [generate_jsonflow_from_text] as a step of the process. *)
Definition generate_jsonflow_from_text_in (nlp : string -> Doc)
    (uuid4 : nat -> string) (text_ : string) (w : Process)
    : Envelope * Process :=
  let '(parser, w1) := new_JSONFlowParser w in
  let w2 := parse_object nlp parser text_ w1 in
  let '(artifact_id_, w3) := draw_uuid4 uuid4 w2 in
  ({| envelope_id := artifact_id_;
      envelope_title := "GeneratedJSONFlowSchema.json";
      envelope_contentType := "application/json";
      envelope_schema := parser |},
   w3).

(** What a holder of the envelope reads under ["schema"] at a given
    moment of the process. *)
Definition read_envelope (w : Process) (e : Envelope) : option FlowSchema :=
  match objects w !! envelope_schema e with
  | Some p => Some (snapshot p)
  | None => None
  end.

(** ** Invariants of a parser *)

(** The context values mirror the context declarations: [context] has
    the default value of the declared type under each declared name, and
    nothing else. *)
Definition mirrors (p : Parser) : Prop :=
  forall n,
    context (schema p) !! n =
    context_default <$> schema_context (schema p) !! n.

(** Every type recorded in the declarations is one of [variable_types]. *)
Definition types_declared (p : Parser) : Prop :=
  (forall n d, inputs (schema p) !! n = Some d ->
               In (type_ d) variable_types) /\
  (forall n ty, schema_context (schema p) !! n = Some ty ->
                In ty variable_types).

(** Every name a payload refers to is a declared input. *)
Definition references_declared (p : Parser) : Prop :=
  forall k n,
    In n (step_names (deref (step_templates p) k)) ->
    has_key (inputs (schema p)) n = true.

(** The log level and the for-each body are the template's, and every
    payload referred to from [steps] has the shape of a step. *)
Definition steps_shaped (p : Parser) : Prop :=
  level (tpl_log (step_templates p)) = "info" /\
  body (tpl_forEach (step_templates p)) = [] /\
  forall k, In k (steps (schema p)) ->
            step_shape (deref (step_templates p) k).

(** ** A table-driven annotator for the examples *)

Definition tok (t l pos dep : string) (h : nat) : Token :=
  {| text := t; lemma_ := l; pos_ := pos; dep_ := dep; head_i := h |}.

Definition stub_sentences : list (string * list Token) :=
  [ ("Take an input username.",
      [ tok "Take" "take" "VERB" "ROOT" 0; tok "an" "a" "DET" "det" 3;
        tok "input" "input" "NOUN" "compound" 3;
        tok "username" "username" "NOUN" "oprd" 0;
        tok "." "." "PUNCT" "punct" 0 ]);
    ("Take an input age as int.",
      [ tok "Take" "take" "VERB" "ROOT" 0; tok "an" "a" "DET" "det" 3;
        tok "input" "input" "NOUN" "compound" 3;
        tok "age" "age" "NOUN" "oprd" 0; tok "as" "as" "ADP" "prep" 0;
        tok "int" "int" "NOUN" "pobj" 4; tok "." "." "PUNCT" "punct" 0 ]);
    ("Set result username.",
      [ tok "Set" "set" "NOUN" "compound" 1;
        tok "result" "result" "NOUN" "ROOT" 1;
        tok "username" "username" "NOUN" "dobj" 1;
        tok "." "." "PUNCT" "punct" 1 ]);
    ("Set alpha one.",
      [ tok "Set" "set" "NOUN" "compound" 1;
        tok "alpha" "alpha" "NOUN" "ROOT" 1;
        tok "one" "one" "NUM" "dobj" 1;
        tok "." "." "PUNCT" "punct" 1 ]);
    ("Set beta two.",
      [ tok "Set" "set" "NOUN" "compound" 1;
        tok "beta" "beta" "NOUN" "ROOT" 1;
        tok "two" "two" "NUM" "dobj" 1;
        tok "." "." "PUNCT" "punct" 1 ]);
    ("check age > 18.",
      [ tok "check" "check" "VERB" "ROOT" 0;
        tok "age" "age" "NOUN" "nsubj" 0;
        tok ">" ">" "SYM" "dep" 0;
        tok "18" "18" "NUM" "attr" 0;
        tok "." "." "PUNCT" "punct" 0 ]);
    ("age > 18 check.",
      [ tok "age" "age" "NOUN" "nsubj" 3;
        tok ">" ">" "SYM" "dep" 3;
        tok "18" "18" "NUM" "attr" 3;
        tok "check" "check" "VERB" "ROOT" 3;
        tok "." "." "PUNCT" "punct" 3 ]);
    ("Print the username.",
      [ tok "Print" "print" "VERB" "ROOT" 0; tok "the" "the" "DET" "det" 2;
        tok "username" "username" "NOUN" "dobj" 0;
        tok "." "." "PUNCT" "punct" 0 ]);
    ("item loop items.",
      [ tok "item" "item" "NOUN" "nsubj" 1;
        tok "loop" "loop" "NOUN" "compound" 2;
        tok "items" "item" "NOUN" "ROOT" 2;
        tok "." "." "PUNCT" "punct" 2 ]);
    ("Define a context variable result.",
      [ tok "Define" "define" "VERB" "ROOT" 0; tok "a" "a" "DET" "det" 4;
        tok "context" "context" "NOUN" "compound" 4;
        tok "variable" "variable" "NOUN" "compound" 4;
        tok "result" "result" "NOUN" "dobj" 0;
        tok "." "." "PUNCT" "punct" 0 ]);
    ("Define a context variable items array.",
      [ tok "Define" "define" "VERB" "ROOT" 0; tok "a" "a" "DET" "det" 4;
        tok "context" "context" "NOUN" "compound" 4;
        tok "variable" "variable" "NOUN" "compound" 4;
        tok "items" "item" "NOUN" "dobj" 0;
        tok "array" "array" "NOUN" "appos" 4;
        tok "." "." "PUNCT" "punct" 0 ]);
    ("Hello world.",
      [ tok "Hello" "hello" "INTJ" "ROOT" 0;
        tok "world" "world" "NOUN" "npadvmod" 0;
        tok "." "." "PUNCT" "punct" 0 ]);
    ("Set it.",
      [ tok "Set" "set" "VERB" "ROOT" 0; tok "it" "it" "PRON" "dobj" 0;
        tok "." "." "PUNCT" "punct" 0 ]);
    ("CREATE a workflow.",
      [ tok "CREATE" "create" "VERB" "ROOT" 0; tok "a" "a" "DET" "det" 2;
        tok "workflow" "workflow" "NOUN" "dobj" 0;
        tok "." "." "PUNCT" "punct" 0 ]) ].

(** The sentence segmentation of the example texts. *)
Definition stub_texts : list (string * list string) :=
  [ ("Set alpha one. Set beta two.", ["Set alpha one."; "Set beta two."]);
    ("Take an input username. Set result username.",
      ["Take an input username."; "Set result username."]);
    ("Set result username. Take an input username.",
      ["Set result username."; "Take an input username."]);
    ("Take an input username. Print the username.",
      ["Take an input username."; "Print the username."]);
    ("CREATE a workflow. item loop items. Print the username. Set alpha one.",
      ["CREATE a workflow."; "item loop items."; "Print the username.";
       "Set alpha one."]);
    ("Define a context variable result. check age > 18.",
      ["Define a context variable result."; "check age > 18."]) ].

Fixpoint assoc {A} (k : string) (l : list (string * A)) : option A :=
  match l with
  | [] => None
  | (k', v) :: rest => if String.eqb k k' then Some v else assoc k rest
  end.

Definition stub_tokens (s : string) : list Token :=
  match assoc s stub_sentences with
  | Some toks => toks
  | None => []
  end.

Definition stub_span (s : string) : Span :=
  {| span_text := s; span_tokens := stub_tokens s |}.

Definition shift_head (k : nat) (t : Token) : Token :=
  {| text := text t; lemma_ := lemma_ t; pos_ := pos_ t; dep_ := dep_ t;
     head_i := k + head_i t |}.

Fixpoint stub_doc_tokens (k : nat) (ss : list string) : list Token :=
  match ss with
  | [] => []
  | s :: rest =>
      map (shift_head k) (stub_tokens s) ++
      stub_doc_tokens (k + length (stub_tokens s)) rest
  end.

(** Texts outside the tables are annotated as empty documents. *)
Definition stub_nlp (s : string) : Doc :=
  match assoc s stub_texts with
  | Some ss => {| tokens := stub_doc_tokens 0 ss; sents := map stub_span ss |}
  | None =>
      match assoc s stub_sentences with
      | Some toks => {| tokens := toks; sents := [stub_span s] |}
      | None => {| tokens := []; sents := [] |}
      end
  end.

(** An identifier source for the examples: the [n]-th identifier is [n]
    letters i followed by "id"; no two draws agree. *)
Fixpoint stub_uuid4 (n : nat) : string :=
  match n with
  | O => "id"
  | S n' => String "i" (stub_uuid4 n')
  end.

(** The table annotator with one more text: a name used, declared and
    used again. *)
Definition stub_texts_more : list (string * list string) :=
  [ ("Set result username. Take an input username. Set result username.",
      ["Set result username."; "Take an input username.";
       "Set result username."]) ].

Definition stub_nlp_more (s : string) : Doc :=
  match assoc s stub_texts_more with
  | Some ss => {| tokens := stub_doc_tokens 0 ss; sents := map stub_span ss |}
  | None => stub_nlp s
  end.

(** A process in which one parser has already been used. *)
Definition stub_process : Process :=
  {| objects := [parse stub_nlp __init__ "Set alpha one. Set beta two."];
     drawn := 0 |}.

(** * The HTTP service ([main.py])

    The route handlers, over the library code they call.  The cryptographic
    and language-model flows ([sheeva], [aivail]), the file system, the JSON
    and model validation of a log line and the byte-string builtins are
    parameters, gathered in [Externals]; each is given the outcomes the
    handlers distinguish.  Calls to [logger] are left out: they write to
    the process log only.  A handler either returns its response model or
    raises; FastAPI turns a raised [HTTPException] into the response with
    that status code. *)

(** The exceptions the handlers tell apart: [ValueError] (and its
    subclasses, with [str(e)]), [HTTPException], any other subclass of
    [Exception] (with [str(e)]), and a [BaseException] that is not an
    [Exception] ([SystemExit], [KeyboardInterrupt], [GeneratorExit]),
    which neither [except ValueError] nor [except Exception] catches. *)
Inductive Exn :=
| ValueError (msg : string)
| HTTPException (status_code : nat) (detail : string)
| OtherException (msg : string)
| BaseException (msg : string).

Inductive Result (A : Type) :=
| Ok (a : A)
| Raise (e : Exn).

Arguments Ok {A} a.
Arguments Raise {A} e.

(** The outcomes of [json.loads(line.strip())] followed by
    the construction of the [LogEntry] that [read_logs] tells apart: an
    entry, a [JSONDecodeError], any other [Exception] ([LineRaises]), and
    a [BaseException] that is not an [Exception] ([LineAborts]). *)
Inductive LineResult (L : Type) :=
| Entry (e : L)
| JSONDecodeError
| LineRaises
| LineAborts (msg : string).

Arguments Entry {L} e.
Arguments JSONDecodeError {L}.
Arguments LineRaises {L}.
Arguments LineAborts {L} msg.

(** The request model. *)
Module ExecuteInput.
Record t := mk {
  script : string;
  input_data : string;
  arbitrary_input : option string;
  target_output : option string;
  aes_key : option string;
  ed25519_key : option string;
  model_name : option string;
  num_layers : option Z;
  include_keccak : option bool;
  commit_entropy : option string;
  reveal_entropy : option string;
  commit_sampling : option string;
  reveal_sampling : option string;
  user_id : option string;
  fee : option Z;
  deploy_shard : option bool
}.
End ExecuteInput.

Record ExecuteResponse (L : Type) := mkExecuteResponse {
  output : string;
  logs : list L
}.

Arguments mkExecuteResponse {L} output logs.
Arguments output {L} e.
Arguments logs {L} e.

Record LogsResponse (L : Type) := mkLogsResponse {
  logs_of : list L
}.

Arguments mkLogsResponse {L} logs_of.
Arguments logs_of {L} l.

(** The library code the handlers call.  An operation that can raise
    returns a [Result]; one that acts on the file system or on a flow
    object also returns the new state. *)
Record Externals := mkExternals {
  World : Type;
  Bytes : Type;
  LogEntry : Type;
  Flow : Type;
  LLMFlow : Type;
  (** [bytes.fromhex(s)]; [inl msg] is [ValueError(msg)]. *)
  fromhex : string -> string + Bytes;
  (** [s.encode()], [b.hex()], [b.decode(errors='replace')] *)
  encode : string -> Bytes;
  hex : Bytes -> string;
  decode_replace : Bytes -> string;
  (** [b.decode()]; [inl msg] is [UnicodeDecodeError], a [ValueError]. *)
  decode : Bytes -> string + string;
  (** [str(e)] of an [HTTPException]. *)
  http_exception_str : nat -> string -> string;
  (** [os.path.exists(f)] *)
  path_exists : string -> World -> bool;
  (** [with open(f, "w") as f: pass]; [Some e]: it raised. *)
  create_empty : string -> World -> option Exn * World;
  (** [open(f, "r")] and the iteration over its lines: the lines yielded
      (none when the file cannot be opened), and the exception that ended
      the reading, [None] at the end of the file. *)
  read_lines : string -> World -> list string * option Exn;
  (** [json.loads(line.strip())] then the construction of the [LogEntry]. *)
  parse_log_line : string -> LineResult LogEntry;
  (** [sheeva.define_default_flow(aes_key, ed25519_key, include_keccak)] *)
  define_crypto_flow :
    Bytes -> Bytes -> option bool -> World -> Result Flow * World;
  (** [flow.execute(data)], [flow.reverse(target)] *)
  flow_execute : Flow -> Bytes -> World -> Result Bytes * Flow * World;
  flow_reverse : Flow -> Bytes -> World -> Result Bytes * Flow * World;
  (** [flow.save_log(f)] *)
  flow_save_log : Flow -> string -> World -> Result unit * Flow * World;
  (** [flow.flow_log], as [ExecuteResponse] validates it into
      [List[LogEntry]]. *)
  flow_log : Flow -> Result (list LogEntry);
  (** [aivail.define_default_flow(model_name, num_layers)] *)
  define_llm_flow :
    option string -> option Z -> World -> Result LLMFlow * World;
  (** [flow.reverse(target)], [flow.reverse_arbitrary(target, arbitrary)],
      with the result as [ExecuteResponse] validates it into [str]. *)
  llm_reverse : LLMFlow -> string -> World -> Result string * LLMFlow * World;
  llm_reverse_arbitrary :
    LLMFlow -> string -> string -> World -> Result string * LLMFlow * World;
  (** [flow.save_flow_log(f)] *)
  llm_save_flow_log :
    LLMFlow -> string -> World -> Result unit * LLMFlow * World
}.

(** Truth value of an [Optional[bool]]. *)
Definition obool (o : option bool) : bool :=
  match o with
  | Some b => b
  | None => false
  end.

(** The line feed of ["\n"]. *)
Definition nl : string := String (ascii_of_nat 10) "".

Section Api.

Variable X : Externals.

(** A computation that reads and updates the world and may raise. *)
Definition M (A : Type) : Type := World X -> Result A * World X.

Definition ret {A} (a : A) : M A := fun w => (Ok a, w).

Definition raise {A} (e : Exn) : M A := fun w => (Raise e, w).

Definition bind {A B} (m : M A) (k : A -> M B) : M B :=
  fun w =>
    match m w with
    | (Ok a, w') => k a w'
    | (Raise e, w') => (Raise e, w')
    end.

(** [try: m  except ...: h e] where [h] decides, per exception, to handle
    it or to let it through. *)
Definition try_except {A} (m : M A) (h : Exn -> M A) : M A :=
  fun w =>
    match m w with
    | (Ok a, w') => (Ok a, w')
    | (Raise e, w') => h e w'
    end.

Notation "x <- m ;; k" := (bind m (fun x => k))
  (at level 100, m at next level, right associativity).

(** A builtin that raises [ValueError] or returns. *)
Definition of_value_error {A} (r : string + A) : M A :=
  match r with
  | inl msg => raise (ValueError msg)
  | inr a => ret a
  end.

(** A method call on a flow object: the flow is updated in place. *)
Definition call {F A} (op : World X -> Result A * F * World X)
    : M (A * F) :=
  fun w =>
    match op w with
    | (Ok a, f, w') => (Ok (a, f), w')
    | (Raise e, _, w') => (Raise e, w')
    end.

(** [str(e)] *)
Definition exn_str (e : Exn) : string :=
  match e with
  | ValueError msg => msg
  | HTTPException c d => http_exception_str X c d
  | OtherException msg => msg
  | BaseException msg => msg
  end.

(** The two handlers that close every route but [get_logs]:
    [except ValueError as e: raise HTTPException(400, str(e))] and
    [except Exception as e: raise HTTPException(500, f"Server error: {str(e)}")].
    Neither catches a [BaseException] that is not an [Exception]: it
    leaves the route as it is. *)
Definition except_value_error_400 {A} (e : Exn) : M A :=
  match e with
  | ValueError msg => raise (HTTPException 400 msg)
  | BaseException _ => raise e
  | _ => raise (HTTPException 500 ("Server error: " +:+ exn_str e))
  end.

Definition except_exception_500 {A} (e : Exn) : M A :=
  match e with
  | BaseException _ => raise e
  | _ => raise (HTTPException 500 ("Server error: " +:+ exn_str e))
  end.

(** *** [read_logs] *)

(** The loop over the lines, and [stop], the exception that ends the
    reading after them: an entry is appended; a line that is not JSON is
    passed over; any other [Exception] leaves the loop for the handler
    [except Exception], after which [read_logs] returns the entries read
    so far; a [BaseException] that is not an [Exception] leaves
    [read_logs]. *)
Fixpoint collect_logs (lines : list string) (stop : option Exn)
    (logs_ : list (LogEntry X)) : Result (list (LogEntry X)) :=
  match lines with
  | [] =>
      match stop with
      | Some (BaseException msg) => Raise (BaseException msg)
      | _ => Ok logs_
      end
  | line :: rest =>
      match parse_log_line X line with
      | Entry e => collect_logs rest stop (logs_ ++ [e])
      | JSONDecodeError => collect_logs rest stop logs_
      | LineRaises => Ok logs_
      | LineAborts msg => Raise (BaseException msg)
      end
  end.

Definition read_logs (log_file : string) : M (list (LogEntry X)) :=
  fun w =>
    if negb (path_exists X log_file w) then
      match create_empty X log_file w with
      | (Some (BaseException msg), w') => (Raise (BaseException msg), w')
      | (Some _, w') => (Ok [], w')
      | (None, w') =>
          let '(lines, stop) := read_lines X log_file w' in
          (collect_logs lines stop [], w')
      end
    else
      let '(lines, stop) := read_lines X log_file w in
      (collect_logs lines stop [], w).

(** *** [get_logs] *)

Definition get_logs (log_file : string) : M (LogsResponse (LogEntry X)) :=
  fun w =>
    if negb (str_in log_file ["tcc_flow_log.jsonl"; "llm_flow_log.jsonl"])
    then (Raise (HTTPException 400
            "Invalid log file. Use 'tcc_flow_log.jsonl' or 'llm_flow_log.jsonl'."),
          w)
    else
      match read_logs log_file w with
      | (Ok logs_, w') =>
          if match logs_ with [] => true | _ :: _ => false end &&
             negb (path_exists X log_file w')
          then (Ok (mkLogsResponse []), w')
          else (Ok (mkLogsResponse logs_), w')
      | (Raise e, w') => (Raise e, w')
      end.

(** *** [deploy_shard] *)

Definition deploy_shard (data : ExecuteInput.t)
    : M (ExecuteResponse (LogEntry X)) :=
  try_except
    (if String.eqb (ExecuteInput.script data) "sheeva" then
       logs_ <- read_logs "tcc_flow_log.jsonl" ;;
       ret (mkExecuteResponse
              "Shard deployment not supported in sheeva.py" logs_)
     else raise (HTTPException 400 "Only sheeva supports deploy_shard"))
    except_exception_500.

(** *** [execute] *)

(** [data.fee < 1000]; comparing [None] with an integer is a
    [TypeError]. *)
Definition fee_below_1000 (fee_ : option Z) : M bool :=
  match fee_ with
  | Some n => ret (Z.ltb n 1000)
  | None =>
      raise (OtherException
        "'<' not supported between instances of 'NoneType' and 'int'")
  end.

(** The optional reversal at the end of the sheeva branch: the
    [try ... except ValueError] around [flow.reverse]. *)
Definition execute_reverse (flow : Flow X) (target : string) (output_ : string)
    : M (string * Flow X) :=
  fun w =>
    match fromhex X target with
    | inl msg => (Ok (output_ +:+ nl +:+ "Reverse error: " +:+ msg, flow), w)
    | inr target_bytes =>
        match flow_reverse X flow target_bytes w with
        | (Ok reconstructed, flow', w') =>
            (Ok (output_ +:+ nl +:+ "Reconstructed input: " +:+
                 decode_replace X reconstructed, flow'), w')
        | (Raise (ValueError msg), flow', w') =>
            (Ok (output_ +:+ nl +:+ "Reverse error: " +:+ msg, flow'), w')
        | (Raise e, _, w') => (Raise e, w')
        end
    end.

Definition execute_sheeva (data : ExecuteInput.t) (output_ : string)
    : M (ExecuteResponse (LogEntry X)) :=
  if negb (otruthy (ExecuteInput.aes_key data)) ||
     negb (Nat.eqb (String.length (default "" (ExecuteInput.aes_key data))) 32)
  then raise (ValueError "AES key must be 32 hex characters")
  else
  aes_key_ <- try_except
                (of_value_error (fromhex X (default "" (ExecuteInput.aes_key data))))
                (fun e => match e with
                          | ValueError _ =>
                              raise (ValueError "AES key must be valid hex")
                          | _ => raise e
                          end) ;;
  if negb (otruthy (ExecuteInput.ed25519_key data)) ||
     negb (Nat.eqb (String.length (default "" (ExecuteInput.ed25519_key data))) 64)
  then raise (ValueError "Ed25519 key must be 64 hex characters")
  else
  ed25519_key_ <- try_except
                    (of_value_error
                       (fromhex X (default "" (ExecuteInput.ed25519_key data))))
                    (fun e => match e with
                              | ValueError _ =>
                                  raise (ValueError "Ed25519 key must be valid hex")
                              | _ => raise e
                              end) ;;
  low <- fee_below_1000 (ExecuteInput.fee data) ;;
  if low then raise (ValueError "Fee must be at least 1000")
  else
  flow <- define_crypto_flow X aes_key_ ed25519_key_
            (ExecuteInput.include_keccak data) ;;
  let output_ :=
    if otruthy (ExecuteInput.commit_entropy data) ||
       otruthy (ExecuteInput.reveal_entropy data)
    then output_ +:+ "Warning: Entropy commit/reveal not supported in sheeva.py"
                 +:+ nl
    else output_ in
  let output_ :=
    if obool (ExecuteInput.deploy_shard data)
    then output_ +:+ "Warning: Shard deployment not supported in sheeva.py"
                 +:+ nl
    else output_ in
  r <- call (flow_execute X flow (encode X (ExecuteInput.input_data data))) ;;
  let '(result, flow) := r in
  let output_ := hex X result in
  r <- (if otruthy (ExecuteInput.target_output data)
        then execute_reverse flow
               (default "" (ExecuteInput.target_output data)) output_
        else ret (output_, flow)) ;;
  let '(output_, flow) := r in
  r <- call (flow_save_log X flow "tcc_flow_log.jsonl") ;;
  let '(_, flow) := r in
  match flow_log X flow with
  | Ok logs_ => ret (mkExecuteResponse output_ logs_)
  | Raise e => raise e
  end.

Definition execute (data : ExecuteInput.t)
    : M (ExecuteResponse (LogEntry X)) :=
  let logs_ : list (LogEntry X) := [] in
  let output_ := "" in
  try_except
    (if negb (truthy (ExecuteInput.input_data data)) ||
        Nat.ltb 1024 (String.length (ExecuteInput.input_data data))
     then raise (ValueError
                   "Input data must be non-empty and at most 1024 characters")
     else if String.eqb (ExecuteInput.script data) "sheeva"
     then execute_sheeva data output_
     else ret (mkExecuteResponse output_ logs_))
    except_value_error_400.

(** *** [reverse] *)

Definition reverse (data : ExecuteInput.t)
    : M (ExecuteResponse (LogEntry X)) :=
  if negb (otruthy (ExecuteInput.target_output data))
  then raise (HTTPException 400 "Target output is required")
  else
  let target := default "" (ExecuteInput.target_output data) in
  try_except
    (if String.eqb (ExecuteInput.script data) "sheeva" then
       if negb (otruthy (ExecuteInput.aes_key data)) ||
          negb (otruthy (ExecuteInput.ed25519_key data))
       then raise (ValueError "AES and Ed25519 keys are required")
       else
       aes_key_ <- of_value_error
                     (fromhex X (default "" (ExecuteInput.aes_key data))) ;;
       ed25519_key_ <- of_value_error
                         (fromhex X (default "" (ExecuteInput.ed25519_key data))) ;;
       flow <- define_crypto_flow X aes_key_ ed25519_key_
                 (ExecuteInput.include_keccak data) ;;
       target_bytes <- of_value_error (fromhex X target) ;;
       r <- call (flow_reverse X flow target_bytes) ;;
       let '(result, flow) := r in
       r <- call (flow_save_log X flow "tcc_flow_log.jsonl") ;;
       output_ <- of_value_error (decode X result) ;;
       logs_ <- read_logs "tcc_flow_log.jsonl" ;;
       ret (mkExecuteResponse output_ logs_)
     else if String.eqb (ExecuteInput.script data) "aivail" then
       flow <- define_llm_flow X (ExecuteInput.model_name data)
                 (ExecuteInput.num_layers data) ;;
       r <- call (llm_reverse X flow target) ;;
       let '(result, flow) := r in
       r <- call (llm_save_flow_log X flow "llm_flow_log.jsonl") ;;
       logs_ <- read_logs "llm_flow_log.jsonl" ;;
       ret (mkExecuteResponse result logs_)
     else raise (HTTPException 400 "Invalid script"))
    except_value_error_400.

(** *** [reverse_arbitrary] *)

Definition reverse_arbitrary (data : ExecuteInput.t)
    : M (ExecuteResponse (LogEntry X)) :=
  if negb (otruthy (ExecuteInput.target_output data)) ||
     negb (otruthy (ExecuteInput.arbitrary_input data))
  then raise (HTTPException 400
                "Target output and arbitrary input are required")
  else
  try_except
    (if String.eqb (ExecuteInput.script data) "aivail" then
       flow <- define_llm_flow X (ExecuteInput.model_name data)
                 (ExecuteInput.num_layers data) ;;
       r <- call (llm_reverse_arbitrary X flow
                    (default "" (ExecuteInput.target_output data))
                    (default "" (ExecuteInput.arbitrary_input data))) ;;
       let '(result, flow) := r in
       r <- call (llm_save_flow_log X flow "llm_flow_log.jsonl") ;;
       logs_ <- read_logs "llm_flow_log.jsonl" ;;
       ret (mkExecuteResponse result logs_)
     else raise (HTTPException 400 "Only aivail supports reverse_arbitrary"))
    except_value_error_400.

End Api.

(** How a route ends: with a response, with an [HTTPException] of status
    400 or 500, or with a [BaseException] that is not an [Exception],
    which no handler catches.  No [ValueError] and no other [Exception]
    leaves a route. *)
Definition ends_as_route {A} (r : Result A) : Prop :=
  match r with
  | Ok _ => True
  | Raise (HTTPException c _) => c = 400 \/ c = 500
  | Raise (BaseException _) => True
  | Raise _ => False
  end.

(** An exception that [except Exception] catches. *)
Definition is_exception (e : Exn) : bool :=
  match e with
  | BaseException _ => false
  | _ => true
  end.

(** The fields of a request that [execute] reads. *)
Definition same_execute_fields (d d' : ExecuteInput.t) : Prop :=
  ExecuteInput.script d = ExecuteInput.script d' /\
  ExecuteInput.input_data d = ExecuteInput.input_data d' /\
  ExecuteInput.target_output d = ExecuteInput.target_output d' /\
  ExecuteInput.aes_key d = ExecuteInput.aes_key d' /\
  ExecuteInput.ed25519_key d = ExecuteInput.ed25519_key d' /\
  ExecuteInput.include_keccak d = ExecuteInput.include_keccak d' /\
  ExecuteInput.fee d = ExecuteInput.fee d'.

(** ** Library stand-ins for the examples

    Files are lists of lines in a map; byte strings are strings; a log
    entry is the line it was read from.  A line starting with an opening
    brace is a log entry, one starting with an opening bracket is JSON but
    no log entry, anything else is not JSON. *)

Definition is_hex_digit (c : ascii) : bool :=
  let n := nat_of_ascii c in
  (Nat.leb 48 n && Nat.leb n 57) || (Nat.leb 97 n && Nat.leb n 102) ||
  (Nat.leb 65 n && Nat.leb n 70).

Fixpoint all_hex (s : string) : bool :=
  match s with
  | EmptyString => true
  | String c s' => is_hex_digit c && all_hex s'
  end.

Definition stub_fromhex (s : string) : string + string :=
  if all_hex s && Nat.even (String.length s) then inr s
  else inl "non-hexadecimal number found in fromhex() arg".

Definition stub_parse_log_line (line : string) : LineResult string :=
  match line with
  | String c _ =>
      if Ascii.eqb c "{"%char then Entry line
      else if Ascii.eqb c "["%char then LineRaises
      else JSONDecodeError
  | EmptyString => JSONDecodeError
  end.

Definition stub_externals : Externals :=
  {| World := gmap string (list string);
     Bytes := string;
     LogEntry := string;
     Flow := unit;
     LLMFlow := unit;
     fromhex := stub_fromhex;
     encode := fun s => s;
     hex := fun b => b;
     decode_replace := fun b => b;
     decode := fun b => inr b;
     http_exception_str := fun _ d => d;
     path_exists := fun f w => has_key w f;
     create_empty := fun f w => (None, <[f := []]> w);
     read_lines := fun f w => (default [] (w !! f), None);
     parse_log_line := stub_parse_log_line;
     define_crypto_flow := fun _ _ _ w => (Ok tt, w);
     flow_execute := fun f b w => (Ok b, f, w);
     flow_reverse := fun f b w => (Ok b, f, w);
     flow_save_log := fun f _ w => (Ok tt, f, w);
     flow_log := fun _ => Ok [];
     define_llm_flow := fun _ _ w => (Ok tt, w);
     llm_reverse := fun f s w => (Ok s, f, w);
     llm_reverse_arbitrary := fun f s _ w => (Ok s, f, w);
     llm_save_flow_log := fun f _ w => (Ok tt, f, w) |}.

(** A request with every optional field at its default. *)
Definition stub_request (script_ input_data_ : string) : ExecuteInput.t :=
  {| ExecuteInput.script := script_;
     ExecuteInput.input_data := input_data_;
     ExecuteInput.arbitrary_input := None;
     ExecuteInput.target_output := None;
     ExecuteInput.aes_key := None;
     ExecuteInput.ed25519_key := None;
     ExecuteInput.model_name := Some "distilgpt2";
     ExecuteInput.num_layers := Some 2%Z;
     ExecuteInput.include_keccak := Some false;
     ExecuteInput.commit_entropy := None;
     ExecuteInput.reveal_entropy := None;
     ExecuteInput.commit_sampling := None;
     ExecuteInput.reveal_sampling := None;
     ExecuteInput.user_id := Some "user1";
     ExecuteInput.fee := Some 1000%Z;
     ExecuteInput.deploy_shard := Some false |}.

(** A log file with two entries around a line that is not JSON and, after
    them, a line that is JSON but no entry, followed by one more entry. *)
Definition stub_log_lines : list string :=
  ["{a}"; "oops"; "{b}"; "[1]"; "{c}"].

(** A second log file: two entries, a line that is JSON but no entry,
    and one more entry. *)
Definition stub_llm_log_lines : list string :=
  ["{a}"; "{b}"; "[1]"; "{c}"].

Definition stub_world : gmap string (list string) :=
  <["llm_flow_log.jsonl" := stub_llm_log_lines]>
    {["tcc_flow_log.jsonl" := stub_log_lines]}.

(** A well-formed sheeva request, and the same request asking for entropy
    commitment and shard deployment. *)
Definition stub_aes_key : string := "00112233445566778899aabbccddeeff".

Definition stub_ed25519_key : string :=
  "00112233445566778899aabbccddeeff00112233445566778899aabbccddeeff".

Definition stub_sheeva_request (commit : option string) (shard : option bool)
    (aes ed : option string) (fee_ : option Z) : ExecuteInput.t :=
  {| ExecuteInput.script := "sheeva";
     ExecuteInput.input_data := "hello";
     ExecuteInput.arbitrary_input := None;
     ExecuteInput.target_output := None;
     ExecuteInput.aes_key := aes;
     ExecuteInput.ed25519_key := ed;
     ExecuteInput.model_name := Some "distilgpt2";
     ExecuteInput.num_layers := Some 2%Z;
     ExecuteInput.include_keccak := Some false;
     ExecuteInput.commit_entropy := commit;
     ExecuteInput.reveal_entropy := None;
     ExecuteInput.commit_sampling := None;
     ExecuteInput.reveal_sampling := None;
     ExecuteInput.user_id := Some "user1";
     ExecuteInput.fee := fee_;
     ExecuteInput.deploy_shard := shard |}.


(** The stand-ins, with a flow constructor that ends the process
    ([sys.exit]). *)
Definition stub_externals_exit : Externals :=
  {| World := gmap string (list string);
     Bytes := string;
     LogEntry := string;
     Flow := unit;
     LLMFlow := unit;
     fromhex := stub_fromhex;
     encode := fun s => s;
     hex := fun b => b;
     decode_replace := fun b => b;
     decode := fun b => inr b;
     http_exception_str := fun _ d => d;
     path_exists := fun f w => has_key w f;
     create_empty := fun f w => (None, <[f := []]> w);
     read_lines := fun f w => (default [] (w !! f), None);
     parse_log_line := stub_parse_log_line;
     define_crypto_flow := fun _ _ _ w => (Raise (BaseException "1"), w);
     flow_execute := fun f b w => (Ok b, f, w);
     flow_reverse := fun f b w => (Ok b, f, w);
     flow_save_log := fun f _ w => (Ok tt, f, w);
     flow_log := fun _ => Ok [];
     define_llm_flow := fun _ _ w => (Ok tt, w);
     llm_reverse := fun f s w => (Ok s, f, w);
     llm_reverse_arbitrary := fun f s _ w => (Ok s, f, w);
     llm_save_flow_log := fun f _ w => (Ok tt, f, w) |}.

(** ** Properties *)

Section Properties.

Variable nlp : string -> Doc.

(** *** Strings and truth values *)

Lemma truthy_nonempty s : truthy s = true <-> s <> "".
Proof.
  unfold truthy. destruct (String.eqb_spec s ""); simpl; split; congruence.
Qed.

Lemma otruthy_Some o :
  otruthy o = true -> exists s, o = Some s /\ s <> "".
Proof.
  destruct o as [s|]; simpl; [|discriminate].
  intros H. exists s. split; [reflexivity|]. by apply truthy_nonempty.
Qed.

Lemma str_in_In x l : str_in x l = true <-> In x l.
Proof.
  unfold str_in. rewrite existsb_exists. split.
  - intros (y & Hy & Heq). apply String.eqb_eq in Heq. by subst.
  - intros H. exists x. split; [done|]. apply String.eqb_refl.
Qed.

(** *** What each operation leaves alone *)

Lemma _parse_input_frame p sent :
  step_templates (_parse_input nlp p sent) = step_templates p /\
  function (schema (_parse_input nlp p sent)) = function (schema p) /\
  steps (schema (_parse_input nlp p sent)) = steps (schema p) /\
  schema_context (schema (_parse_input nlp p sent)) = schema_context (schema p) /\
  context (schema (_parse_input nlp p sent)) = context (schema p).
Proof.
  unfold _parse_input.
  destruct (input_scan _) as [[[name|] ty] d]; [|done].
  destruct (truthy name); done.
Qed.

Lemma _parse_context_frame p sent :
  step_templates (_parse_context nlp p sent) = step_templates p /\
  function (schema (_parse_context nlp p sent)) = function (schema p) /\
  steps (schema (_parse_context nlp p sent)) = steps (schema p) /\
  inputs (schema (_parse_context nlp p sent)) = inputs (schema p).
Proof.
  unfold _parse_context.
  destruct (context_scan _) as [[name|] ty]; [|done].
  destruct (truthy name); done.
Qed.

Lemma _parse_set_step_schema p sent :
  schema (fst (_parse_set_step nlp p sent)) = schema p.
Proof.
  unfold _parse_set_step.
  destruct (set_scan _) as [[tg|] [v|]]; simpl;
    repeat (destruct (truthy _); simpl); done.
Qed.

Lemma _parse_assert_step_schema p sent :
  schema (fst (_parse_assert_step nlp p sent)) = schema p.
Proof.
  unfold _parse_assert_step.
  destruct (assert_scan _) as [[[c [l|]] [o|]] [r|]]; simpl;
    repeat (destruct (truthy _); simpl); done.
Qed.

Lemma _parse_log_step_schema p sent :
  schema (fst (_parse_log_step nlp p sent)) = schema p.
Proof.
  unfold _parse_log_step. destruct (log_scan _); done.
Qed.

Lemma _parse_foreach_step_schema p sent :
  schema (fst (_parse_foreach_step nlp p sent)) = schema p.
Proof.
  unfold _parse_foreach_step.
  destruct (foreach_scan _) as [[src|] [it|]]; simpl;
    repeat (destruct (truthy _); simpl); done.
Qed.

(** Whether a step extractor returns a step depends on the sentence only,
    not on the parser it runs in. *)
Lemma _parse_set_step_result p q sent :
  snd (_parse_set_step nlp p sent) = snd (_parse_set_step nlp q sent).
Proof.
  unfold _parse_set_step.
  destruct (set_scan _) as [[tg|] [v|]]; simpl;
    repeat (destruct (truthy _); simpl); done.
Qed.

Lemma _parse_assert_step_result p q sent :
  snd (_parse_assert_step nlp p sent) = snd (_parse_assert_step nlp q sent).
Proof.
  unfold _parse_assert_step.
  destruct (assert_scan _) as [[[c [l|]] [o|]] [r|]]; simpl;
    repeat (destruct (truthy _); simpl); done.
Qed.

Lemma _parse_log_step_result p q sent :
  snd (_parse_log_step nlp p sent) = snd (_parse_log_step nlp q sent).
Proof.
  unfold _parse_log_step. destruct (log_scan _); done.
Qed.

Lemma _parse_foreach_step_result p q sent :
  snd (_parse_foreach_step nlp p sent) = snd (_parse_foreach_step nlp q sent).
Proof.
  unfold _parse_foreach_step.
  destruct (foreach_scan _) as [[src|] [it|]]; simpl;
    repeat (destruct (truthy _); simpl); done.
Qed.

Lemma append_if_step_schema r :
  function (schema (append_if_step r)) = function (schema (fst r)) /\
  inputs (schema (append_if_step r)) = inputs (schema (fst r)) /\
  schema_context (schema (append_if_step r)) = schema_context (schema (fst r)) /\
  context (schema (append_if_step r)) = context (schema (fst r)) /\
  steps (schema (append_if_step r)) =
    steps (schema (fst r)) ++ match snd r with Some st => [st] | None => [] end /\
  step_templates (append_if_step r) = step_templates (fst r).
Proof.
  destruct r as [p [st|]]; simpl; rewrite ?app_nil_r; done.
Qed.

Lemma process_sentence_function p sent :
  function (schema (process_sentence nlp p sent)) = function (schema p).
Proof.
  unfold process_sentence.
  repeat (destruct (contains _ _); simpl);
    first [ apply _parse_input_frame | apply _parse_context_frame | done
          | rewrite (proj1 (append_if_step_schema _));
            by rewrite ?_parse_set_step_schema, ?_parse_assert_step_schema,
                       ?_parse_log_step_schema, ?_parse_foreach_step_schema ].
Qed.

Lemma _process_sentences_function ss p :
  function (schema (fold_left (process_sentence nlp) ss p)) = function (schema p).
Proof.
  revert p. induction ss as [|s ss IH]; intros p; simpl; [done|].
  by rewrite IH, process_sentence_function.
Qed.

(** *** The function name *)

Lemma find_app_first {A} (f : A -> bool) l1 l2 :
  find f (l1 ++ l2) =
  match find f l1 with
  | Some x => Some x
  | None => find f l2
  end.
Proof.
  induction l1 as [|a l1 IH]; simpl; [done|]. by destruct (f a).
Qed.

Lemma function_name_in_sent_find toks :
  function_name_in_sent toks =
  match find is_function_verb toks with
  | Some t => Some (capitalize (text t) +:+ "Workflow")
  | None => None
  end.
Proof.
  induction toks as [|t toks IH]; simpl; [done|].
  by destruct (is_function_verb t).
Qed.

Lemma function_name_in_sents_find ss :
  function_name_in_sents ss =
  match find is_function_verb (List.concat (map span_tokens ss)) with
  | Some t => Some (capitalize (text t) +:+ "Workflow")
  | None => None
  end.
Proof.
  induction ss as [|s ss IH]; simpl; [done|].
  rewrite find_app_first, function_name_in_sent_find.
  by destruct (find is_function_verb (span_tokens s)).
Qed.

(** C8: after [parse], on any parser and any text, [function] is the
    capitalized surface of the first token, in document order over all
    sentences, that is a verb with lemma create, build, define or
    generate, followed by "Workflow"; when there is no such token (in
    particular when the document has no sentence) it is
    "DefaultWorkflow". *)
Theorem parse_function_name p text_ :
  function (schema (parse nlp p text_)) =
  match find (fun t => String.eqb (pos_ t) "VERB" &&
                       str_in (lemma_ t) ["create"; "build"; "define"; "generate"])
             (List.concat (map span_tokens (sents (nlp text_)))) with
  | Some t => capitalize (text t) +:+ "Workflow"
  | None => "DefaultWorkflow"
  end.
Proof.
  change (fun t => String.eqb (pos_ t) "VERB" &&
                   str_in (lemma_ t) ["create"; "build"; "define"; "generate"])
    with is_function_verb.
  unfold parse, _process_sentences.
  rewrite _process_sentences_function.
  unfold set_function, _generate_function_name; cbn [schema function].
  rewrite function_name_in_sents_find.
  by destruct (find is_function_verb _).
Qed.

(** *** Routing *)

Lemma process_sentence_dispatch p sent :
  process_sentence nlp p sent = dispatch nlp p sent.
Proof.
  unfold process_sentence, dispatch, classify, cue_table, matches_row.
  remember (lower (span_text sent)) as t eqn:Ht. clear Ht.
  cbn [find existsb fst snd].
  rewrite !orb_false_r.
  repeat (destruct (contains _ t); cbn [orb run_extractor snd]; try reflexivity).
Qed.

Lemma no_structure_no_effect p sent r :
  finds_structure nlp sent r = false -> run_extractor nlp p sent r = p.
Proof.
  destruct r; simpl.
  - unfold _parse_input.
    destruct (input_scan _) as [[[name|] ty] d]; simpl; [|done].
    by intros ->.
  - unfold _parse_set_step.
    destruct (set_scan _) as [tg v]; simpl. by intros ->.
  - unfold _parse_assert_step.
    destruct (assert_scan _) as [[[c l] o] r]. by intros ->.
  - unfold _parse_log_step. by destruct (log_scan _).
  - unfold _parse_foreach_step.
    destruct (foreach_scan _) as [src it]; simpl. by intros ->.
  - unfold _parse_context.
    destruct (context_scan _) as [[name|] ty]; simpl; [|done].
    by intros ->.
Qed.


(** *** Steps are returned whole *)

Lemma value_ref_filled p x : x <> "" -> value_filled (value_ref p x).
Proof. intros H. unfold value_ref. by destruct (has_key _ x). Qed.

Lemma assert_scan_step_op doc st t o :
  snd (fst (assert_scan_step doc st t)) = Some o ->
  snd (fst st) = Some o \/ In o comparison_ops.
Proof.
  destruct st as [[[c l] o'] r]. unfold assert_scan_step.
  destruct (str_in (lower (text t)) _); [by left|].
  destruct (_ && _); [by left|].
  destruct (str_in (text t) comparison_ops) eqn:Hop.
  - cbn [fst snd]. intros [= <-]. right. by apply str_in_In.
  - destruct (_ || _); by left.
Qed.

Lemma assert_scan_fold_op doc l st o :
  snd (fst (fold_left (assert_scan_step doc) l st)) = Some o ->
  snd (fst st) = Some o \/ In o comparison_ops.
Proof.
  revert st. induction l as [|t l IH]; intros st; simpl; [by left|].
  intros H. destruct (IH _ H) as [H'|]; [|by right].
  by apply assert_scan_step_op in H'.
Qed.

Lemma assert_scan_op doc c l o r :
  assert_scan doc = (c, l, Some o, r) -> In o comparison_ops.
Proof.
  intros H. destruct (assert_scan_fold_op doc doc (None, None, None, None) o)
    as [?|?]; [|done|done].
  unfold assert_scan in H. by rewrite H.
Qed.

Lemma _parse_set_step_whole p sent :
  nothing_or_fully_formed p RSet (_parse_set_step nlp p sent).
Proof.
  unfold _parse_set_step.
  destruct (set_scan _) as [tg v].
  destruct (otruthy tg) eqn:Htg; [|done].
  destruct (otruthy v) eqn:Hv; [|done].
  apply otruthy_Some in Htg as (tg' & -> & Htg).
  apply otruthy_Some in Hv as (v' & -> & Hv).
  simpl. repeat split; [done|]. by apply value_ref_filled.
Qed.

Lemma _parse_assert_step_whole p sent :
  nothing_or_fully_formed p RAssert (_parse_assert_step nlp p sent).
Proof.
  unfold _parse_assert_step.
  destruct (assert_scan _) as [[[c l] o] r] eqn:Hscan.
  destruct (otruthy l) eqn:Hl; [|done].
  destruct (otruthy o) eqn:Ho; [|done].
  destruct (otruthy r) eqn:Hr; [|done].
  apply otruthy_Some in Hl as (l' & -> & Hl).
  apply otruthy_Some in Ho as (o' & -> & Ho).
  apply otruthy_Some in Hr as (r' & -> & Hr).
  simpl. repeat split.
  - by apply value_ref_filled.
  - by apply assert_scan_op in Hscan.
  - by apply value_ref_filled.
  - destruct l'; [done|discriminate].
Qed.

Lemma _parse_log_step_whole p sent :
  nothing_or_fully_formed p RLog (_parse_log_step nlp p sent).
Proof.
  unfold _parse_log_step. destruct (log_scan _); simpl; done.
Qed.

Lemma _parse_foreach_step_whole p sent :
  nothing_or_fully_formed p RForEach (_parse_foreach_step nlp p sent).
Proof.
  unfold _parse_foreach_step.
  destruct (foreach_scan _) as [src it].
  destruct (otruthy src) eqn:Hsrc; [|done].
  destruct (otruthy it) eqn:Hit; [|done].
  apply otruthy_Some in Hsrc as (src' & -> & Hsrc).
  apply otruthy_Some in Hit as (it' & -> & Hit).
  simpl. done.
Qed.

(** C9: in any parser and on any sentence, each of the four step
    extractors returns either nothing, leaving the parser unchanged, or a
    step that reads as fully formed on return: a set step with non-empty
    target and value, an assert step with non-empty left and right, an
    operator of the comparison list and a message, a log step with a
    non-empty message list, a for-each step with non-empty source and
    loop variable. *)
Theorem extractors_return_whole_steps p sent :
  nothing_or_fully_formed p RSet (_parse_set_step nlp p sent) /\
  nothing_or_fully_formed p RAssert (_parse_assert_step nlp p sent) /\
  nothing_or_fully_formed p RLog (_parse_log_step nlp p sent) /\
  nothing_or_fully_formed p RForEach (_parse_foreach_step nlp p sent).
Proof.
  split; [apply _parse_set_step_whole|].
  split; [apply _parse_assert_step_whole|].
  split; [apply _parse_log_step_whole|apply _parse_foreach_step_whole].
Qed.

(** *** The body of a for-each step *)

Lemma append_if_step_templates r :
  step_templates (append_if_step r) = step_templates (fst r).
Proof. by destruct r as [p [st|]]. Qed.

Lemma step_extractors_body p sent :
  body (tpl_forEach (step_templates p)) = [] ->
  body (tpl_forEach (step_templates (fst (_parse_set_step nlp p sent)))) = [] /\
  body (tpl_forEach (step_templates (fst (_parse_assert_step nlp p sent)))) = [] /\
  body (tpl_forEach (step_templates (fst (_parse_log_step nlp p sent)))) = [] /\
  body (tpl_forEach (step_templates (fst (_parse_foreach_step nlp p sent)))) = [].
Proof.
  intros Hinv. repeat split.
  - unfold _parse_set_step.
    destruct (set_scan _) as [[tg|] [v|]]; simpl;
      repeat (destruct (truthy _); simpl); done.
  - unfold _parse_assert_step.
    destruct (assert_scan _) as [[[c [l|]] [o|]] [r|]]; simpl;
      repeat (destruct (truthy _); simpl); done.
  - unfold _parse_log_step. destruct (log_scan _); done.
  - unfold _parse_foreach_step.
    destruct (foreach_scan _) as [[src|] [it|]]; simpl;
      repeat (destruct (truthy _); simpl); done.
Qed.

Lemma process_sentence_body p sent :
  body (tpl_forEach (step_templates p)) = [] ->
  body (tpl_forEach (step_templates (process_sentence nlp p sent))) = [].
Proof.
  intros Hinv. rewrite process_sentence_dispatch. unfold dispatch.
  destruct (step_extractors_body p sent Hinv) as (Hs & Ha & Hl & Hf).
  destruct (classify _) as [r|]; [|done].
  destruct r; simpl; rewrite ?append_if_step_templates; try done.
  - by rewrite (proj1 (_parse_input_frame p sent)).
  - by rewrite (proj1 (_parse_context_frame p sent)).
Qed.

Lemma parse_body p text_ :
  body (tpl_forEach (step_templates p)) = [] ->
  body (tpl_forEach (step_templates (parse nlp p text_))) = [].
Proof.
  unfold parse, _process_sentences. intros Hinv.
  assert (body (tpl_forEach (step_templates
    (set_function p (_generate_function_name (nlp text_))))) = []) as H by done.
  revert H. generalize (set_function p (_generate_function_name (nlp text_))).
  induction (sents (nlp text_)) as [|s ss IH]; intros q Hq; simpl; [done|].
  apply IH. by apply process_sentence_body.
Qed.

Lemma parse_many_body texts p :
  body (tpl_forEach (step_templates p)) = [] ->
  body (tpl_forEach (step_templates (fold_left (parse nlp) texts p))) = [].
Proof.
  revert p. induction texts as [|t texts IH]; intros p Hp; simpl; [done|].
  apply IH. by apply parse_body.
Qed.

Lemma body_empty_read_steps p :
  body (tpl_forEach (step_templates p)) = [] ->
  Forall body_empty (read_steps p).
Proof.
  intros Hinv. unfold read_steps. apply List.Forall_forall.
  intros st Hin. apply in_map_iff in Hin as (r & <- & _).
  by destruct r.
Qed.

(** C6: every for-each step read from the schema has an empty [body],
    whatever the texts: after any sequence of [parse] calls on a parser
    created by [__init__], and so in the schema the top-level wrapper
    returns. *)
Theorem foreach_body_always_empty texts uuid4 text_ n :
  Forall body_empty (read_steps (fold_left (parse nlp) texts __init__)) /\
  Forall body_empty
    (read_steps
       (artifact_schema (fst (generate_jsonflow_from_text nlp uuid4 text_ n)))).
Proof.
  split.
  - apply body_empty_read_steps. by apply parse_many_body.
  - apply body_empty_read_steps. simpl. by apply parse_body.
Qed.

(** *** Type defaults *)

Lemma input_scan_fold_type doc l st :
  existsb is_type_token l = false ->
  snd (fst (fold_left (input_scan_step doc) l st)) = snd (fst st).
Proof.
  revert st. induction l as [|t l IH]; intros st; simpl; [done|].
  intros H. apply orb_false_iff in H as [Ht Hl].
  rewrite (IH _ Hl). destruct st as [[name ty] d].
  unfold input_scan_step. unfold is_type_token in Ht. rewrite Ht.
  destruct (_ && _); [done|]. by destruct (_ || _).
Qed.

Lemma context_scan_fold_type doc l st :
  existsb is_type_token l = false ->
  snd (fold_left (context_scan_step doc) l st) = snd st.
Proof.
  revert st. induction l as [|t l IH]; intros st; simpl; [done|].
  intros H. apply orb_false_iff in H as [Ht Hl].
  rewrite (IH _ Hl). destruct st as [name ty].
  unfold context_scan_step. unfold is_type_token in Ht. rewrite Ht.
  by destruct (_ && _).
Qed.

(** C7: an input declaration whose sentence has no type token is recorded
    with type "string"; and, on its own, so is a context declaration, and
    every context declaration records its type and initializes
    [context[name]] to the empty string for "string", the empty list for
    "array" and the empty dictionary for any other type. *)
Theorem declaration_type_defaults :
  (forall p si ni,
     fst (fst (input_scan (tokens (nlp (span_text si))))) = Some ni ->
     ni <> "" ->
     existsb is_type_token (tokens (nlp (span_text si))) = false ->
     exists d, inputs (schema (_parse_input nlp p si)) !! ni = Some d /\
               type_ d = "string") /\
  (forall p sc nc ty,
     context_scan (tokens (nlp (span_text sc))) = (Some nc, ty) ->
     nc <> "" ->
     (existsb is_type_token (tokens (nlp (span_text sc))) = false ->
      ty = "string") /\
     schema_context (schema (_parse_context nlp p sc)) !! nc = Some ty /\
     (ty = "string" ->
      context (schema (_parse_context nlp p sc)) !! nc = Some EmptyStr) /\
     (ty = "array" ->
      context (schema (_parse_context nlp p sc)) !! nc = Some EmptyList) /\
     (ty <> "string" -> ty <> "array" ->
      context (schema (_parse_context nlp p sc)) !! nc = Some EmptyDict)).
Proof.
  split.
  - intros p si ni Hni Hni' Hno. apply truthy_nonempty in Hni'.
    unfold _parse_input.
    pose proof (input_scan_fold_type (tokens (nlp (span_text si)))
                  (tokens (nlp (span_text si))) (None, "string", "") Hno) as Hty.
    fold (input_scan (tokens (nlp (span_text si)))) in Hty.
    destruct (input_scan _) as [[name ty'] d]. simpl in Hni, Hty. subst.
    rewrite Hni'. eexists. split; [apply lookup_insert_eq|done].
  - intros p sc nc ty Hsc Hnc'. apply truthy_nonempty in Hnc'.
    split.
    + intros Hno.
      pose proof (context_scan_fold_type (tokens (nlp (span_text sc)))
                    (tokens (nlp (span_text sc))) (None, "string") Hno) as Hty.
      fold (context_scan (tokens (nlp (span_text sc)))) in Hty.
      rewrite Hsc in Hty. done.
    + unfold _parse_context. rewrite Hsc, Hnc'. simpl.
      rewrite !lookup_insert_eq. unfold context_default.
      repeat split.
      * by intros ->.
      * by intros ->.
      * intros H1 H2. apply String.eqb_neq in H1, H2. by rewrite H1, H2.
Qed.

(** *** What a sentence adds to the schema *)

Lemma step_route_schema p sent :
  let keep q :=
    function (schema q) = function (schema p) /\
    inputs (schema q) = inputs (schema p) /\
    schema_context (schema q) = schema_context (schema p) /\
    context (schema q) = context (schema p) in
  keep (append_if_step (_parse_set_step nlp p sent)) /\
  keep (append_if_step (_parse_assert_step nlp p sent)) /\
  keep (append_if_step (_parse_log_step nlp p sent)) /\
  keep (append_if_step (_parse_foreach_step nlp p sent)).
Proof.
  simpl.
  pose proof (append_if_step_schema (_parse_set_step nlp p sent)) as Hs.
  pose proof (append_if_step_schema (_parse_assert_step nlp p sent)) as Ha.
  pose proof (append_if_step_schema (_parse_log_step nlp p sent)) as Hl.
  pose proof (append_if_step_schema (_parse_foreach_step nlp p sent)) as Hf.
  rewrite _parse_set_step_schema in Hs.
  rewrite _parse_assert_step_schema in Ha.
  rewrite _parse_log_step_schema in Hl.
  rewrite _parse_foreach_step_schema in Hf.
  tauto.
Qed.

Lemma process_sentence_steps p sent :
  steps (schema (process_sentence nlp p sent)) =
  steps (schema p) ++ steps (schema (process_sentence nlp __init__ sent)).
Proof.
  rewrite !process_sentence_dispatch. unfold dispatch.
  destruct (classify _) as [r|]; [|by rewrite app_nil_r].
  destruct r; simpl run_extractor.
  - rewrite !(proj1 (proj2 (proj2 (_parse_input_frame _ sent)))).
    by rewrite app_nil_r.
  - rewrite !(proj1 (proj2 (proj2 (proj2 (proj2 (append_if_step_schema _)))))).
    rewrite !_parse_set_step_schema.
    by rewrite (_parse_set_step_result p __init__).
  - rewrite !(proj1 (proj2 (proj2 (proj2 (proj2 (append_if_step_schema _)))))).
    rewrite !_parse_assert_step_schema.
    by rewrite (_parse_assert_step_result p __init__).
  - rewrite !(proj1 (proj2 (proj2 (proj2 (proj2 (append_if_step_schema _)))))).
    rewrite !_parse_log_step_schema.
    by rewrite (_parse_log_step_result p __init__).
  - rewrite !(proj1 (proj2 (proj2 (proj2 (proj2 (append_if_step_schema _)))))).
    rewrite !_parse_foreach_step_schema.
    by rewrite (_parse_foreach_step_result p __init__).
  - rewrite !(proj1 (proj2 (proj2 (_parse_context_frame _ sent)))).
    by rewrite app_nil_r.
Qed.

Lemma _process_sentences_steps ss p :
  steps (schema (fold_left (process_sentence nlp) ss p)) =
  steps (schema p) ++
  List.concat
    (map (fun s => steps (schema (process_sentence nlp __init__ s))) ss).
Proof.
  revert p. induction ss as [|s ss IH]; intros p; simpl.
  - by rewrite app_nil_r.
  - by rewrite IH, process_sentence_steps, <- app_assoc.
Qed.

Lemma parse_steps p text_ :
  steps (schema (parse nlp p text_)) =
  steps (schema p) ++ steps (schema (parse nlp __init__ text_)).
Proof.
  unfold parse, _process_sentences.
  by rewrite !(_process_sentences_steps (sents (nlp text_))).
Qed.

Lemma process_sentence_inputs_dom p sent :
  dom (inputs (schema (process_sentence nlp p sent))) =
  dom (inputs (schema p)) ∪
  match declared_input nlp sent with
  | Some name => {[name]}
  | None => ∅
  end.
Proof.
  destruct (step_route_schema p sent) as (Hs & Ha & Hl & Hf).
  unfold process_sentence, declared_input.
  destruct (contains "input" _).
  - clear Hs Ha Hl Hf. unfold _parse_input.
    destruct (input_scan _) as [[[name|] ty] d]; simpl.
    + destruct (truthy name); simpl; [|by rewrite union_empty_r_L].
      rewrite dom_insert_L. apply union_comm_L.
    + by rewrite union_empty_r_L.
  - rewrite union_empty_r_L.
    destruct Hs as (_ & Hs & _), Ha as (_ & Ha & _), Hl as (_ & Hl & _),
             Hf as (_ & Hf & _).
    repeat (destruct (_ || _));
      by rewrite ?Hs, ?Ha, ?Hl, ?Hf,
                 ?(proj2 (proj2 (proj2 (_parse_context_frame p sent)))).
Qed.

Lemma _process_sentences_inputs_dom ss p :
  dom (inputs (schema (fold_left (process_sentence nlp) ss p))) =
  dom (inputs (schema p)) ∪ list_to_set (omap (declared_input nlp) ss).
Proof.
  revert p. induction ss as [|s ss IH]; intros p; simpl.
  - by rewrite union_empty_r_L.
  - rewrite IH, process_sentence_inputs_dom.
    destruct (declared_input nlp s); simpl.
    + by rewrite (assoc_L (∪)).
    + by rewrite union_empty_r_L.
Qed.




(** *** Literal or reference *)

Lemma has_key_dom {V} (m : gmap string V) k :
  has_key m k = true <-> k ∈ dom m.
Proof.
  unfold has_key. rewrite elem_of_dom.
  destruct (m !! k); split; done.
Qed.

Lemma parser_after_inputs text_ pre x :
  has_key (inputs (schema (parser_after nlp text_ pre))) x = true <->
  x ∈ omap (declared_input nlp) pre.
Proof.
  rewrite has_key_dom. unfold parser_after.
  rewrite _process_sentences_inputs_dom.
  cbn [set_function __init__ schema inputs].
  rewrite dom_empty_L, union_empty_l_L. apply elem_of_list_to_set.
Qed.

Lemma value_ref_after text_ pre x :
  value_ref (parser_after nlp text_ pre) x =
  if bool_decide (x ∈ omap (declared_input nlp) pre) then Get x else Lit x.
Proof.
  unfold value_ref.
  pose proof (parser_after_inputs text_ pre x) as H.
  destruct (has_key _ x); case_bool_decide; try done.
  - exfalso. tauto.
  - assert (false = true) by tauto. done.
Qed.

Lemma parse_split text_ pre s post :
  sents (nlp text_) = pre ++ s :: post ->
  parse nlp __init__ text_ =
  fold_left (process_sentence nlp) post
    (process_sentence nlp (parser_after nlp text_ pre) s).
Proof.
  intros H. unfold parse, _process_sentences, parser_after.
  by rewrite H, fold_left_app.
Qed.

(** *** The assert extractor scans once, left to right *)

Lemma fold_left_preserves {A B} (f : A -> B -> A) (P : A -> Prop) l st :
  (forall st t, In t l -> P st -> P (f st t)) -> P st -> P (fold_left f l st).
Proof.
  revert st. induction l as [|t l IH]; intros st Hstep Hst; simpl; [done|].
  apply IH.
  - intros st' t' Hin. apply Hstep. by right.
  - apply Hstep; [by left|done].
Qed.

Lemma fold_left_reaches {A B} (f : A -> B -> A) (P : A -> Prop) l t st :
  (forall st t', In t' l -> P st -> P (f st t')) ->
  In t l -> (forall st, P (f st t)) -> P (fold_left f l st).
Proof.
  intros Hkeep Hin Hset. apply in_split in Hin as (l1 & l2 & ->).
  rewrite fold_left_app. simpl. apply fold_left_preserves; [|apply Hset].
  intros st' t' Hin. apply Hkeep. apply in_or_app. right. by right.
Qed.

Lemma op_not_cue t : is_op t = true -> is_cue t = false.
Proof.
  unfold is_op, is_cue. rewrite str_in_In. unfold comparison_ops.
  intros H. repeat (destruct H as [<-|H]; [reflexivity|]). destruct H.
Qed.

Lemma object_not_nsubj t : is_object t = true -> is_nsubj t = false.
Proof.
  unfold is_object, is_nsubj. intros H.
  apply orb_true_iff in H as [H|H]; apply String.eqb_eq in H; by rewrite H.
Qed.

Section AssertScan.

Variable doc : list Token.

Lemma assert_step_keeps (st : AssertState) t :
  truthy (text t) = true ->
  (otruthy (snd (fst (fst st))) = true ->
   otruthy (snd (fst (fst (assert_scan_step doc st t)))) = true) /\
  (otruthy (snd (fst st)) = true ->
   otruthy (snd (fst (assert_scan_step doc st t))) = true) /\
  (otruthy (snd st) = true ->
   otruthy (snd (assert_scan_step doc st t)) = true).
Proof.
  intros Ht. destruct st as [[[c l] o] r]. unfold assert_scan_step.
  destruct (str_in (lower (text t)) _); [done|].
  destruct (_ && _); [done|].
  destruct (str_in (text t) comparison_ops); [done|].
  by destruct (_ || _).
Qed.

Lemma assert_step_cue (st : AssertState) t :
  is_cue t = true ->
  fst (fst (fst (assert_scan_step doc st t))) = Some (text (head_of doc t)).
Proof.
  intros Ht. destruct st as [[[c l] o] r]. unfold assert_scan_step.
  unfold is_cue in Ht. by rewrite Ht.
Qed.

Lemma assert_step_condition (st : AssertState) t :
  is_cue t = false ->
  fst (fst (fst (assert_scan_step doc st t))) = fst (fst (fst st)).
Proof.
  intros Ht. destruct st as [[[c l] o] r]. unfold assert_scan_step.
  unfold is_cue in Ht. rewrite Ht.
  destruct (_ && _); [done|].
  destruct (str_in (text t) comparison_ops); [done|].
  by destruct (_ || _).
Qed.

Lemma assert_step_left (st : AssertState) t :
  is_cue t = false -> is_nsubj t = true ->
  fst (fst (fst st)) = Some (text (head_of doc t)) ->
  snd (fst (fst (assert_scan_step doc st t))) = Some (text t).
Proof.
  intros Hc Hn Hcond. destruct st as [[[c l] o] r]. simpl in Hcond. subst c.
  unfold assert_scan_step. unfold is_cue in Hc. unfold is_nsubj in Hn.
  by rewrite Hc, Hn, String.eqb_refl.
Qed.

Lemma assert_step_op (st : AssertState) t :
  is_op t = true -> is_nsubj t = false ->
  snd (fst (assert_scan_step doc st t)) = Some (text t).
Proof.
  intros Ho Hn. pose proof (op_not_cue t Ho) as Hc.
  destruct st as [[[c l] o] r]. unfold assert_scan_step.
  unfold is_cue in Hc. unfold is_nsubj in Hn. unfold is_op in Ho.
  by rewrite Hc, Hn, Ho.
Qed.

Lemma assert_step_right (st : AssertState) t :
  is_object t = true -> is_cue t = false -> is_op t = false ->
  snd (assert_scan_step doc st t) = Some (text t).
Proof.
  intros Hobj Hc Ho. pose proof (object_not_nsubj t Hobj) as Hn.
  destruct st as [[[c l] o] r]. unfold assert_scan_step.
  unfold is_cue in Hc. unfold is_nsubj in Hn. unfold is_op in Ho.
  unfold is_object in Hobj.
  by rewrite Hc, Hn, Ho, Hobj.
Qed.

End AssertScan.

Lemma existsb_false_In {A} (f : A -> bool) l t :
  existsb f l = false -> In t l -> f t = false.
Proof.
  intros H Hin. destruct (f t) eqn:Hf; [|done].
  assert (existsb f l = true) by (apply existsb_exists; eauto). congruence.
Qed.

(** C3, as amended: in a sentence whose tokens all have a non-empty
    surface, the assert extractor returns a step whenever the sentence has
    a cue token, later a nominal-subject token that is not a cue, with no
    cue in between, whose head has the surface of the cue's head, and,
    anywhere, a comparison-operator token that is not a nominal subject
    and an object token that is neither a cue nor an operator. *)
Theorem assert_step_when_cue_precedes_subject p sent pre cue mid subj post :
  let doc := tokens (nlp (span_text sent)) in
  doc = pre ++ cue :: mid ++ subj :: post ->
  forallb (fun t => truthy (text t)) doc = true ->
  is_cue cue = true ->
  existsb is_cue mid = false ->
  is_cue subj = false ->
  is_nsubj subj = true ->
  text (head_of doc subj) = text (head_of doc cue) ->
  existsb (fun t => is_op t && negb (is_nsubj t)) doc = true ->
  existsb (fun t => is_object t && negb (is_cue t) && negb (is_op t)) doc = true ->
  exists p', _parse_assert_step nlp p sent = (p', Some RAssert).
Proof.
  intros doc Hdoc Hne Hcue Hmid Hsc Hsn Hhead Hop Hobj.
  rewrite forallb_forall in Hne.
  assert (otruthy (snd (fst (fst (assert_scan doc)))) = true) as Hl.
  { unfold assert_scan. rewrite Hdoc at 2.
    replace (pre ++ cue :: mid ++ subj :: post)
      with ((pre ++ cue :: mid) ++ subj :: post)
      by (by rewrite <- app_assoc).
    rewrite fold_left_app. simpl.
    apply (fold_left_preserves _
             (fun st => otruthy (snd (fst (fst st))) = true)).
    - intros st t Hin. apply assert_step_keeps, Hne.
      rewrite Hdoc. apply in_or_app. right. right.
      apply in_or_app. right. by right.
    - rewrite assert_step_left; [| done | done |].
      + simpl. apply Hne. rewrite Hdoc. apply in_or_app. right. right.
        apply in_or_app. right. by left.
      + rewrite Hhead, fold_left_app. simpl.
        apply (fold_left_preserves _
                 (fun st => fst (fst (fst st)) = Some (text (head_of doc cue)))).
        * intros st t Hin Hst. rewrite assert_step_condition; [done|].
          by apply (existsb_false_In _ mid).
        * by apply assert_step_cue. }
  assert (otruthy (snd (fst (assert_scan doc))) = true) as Ho.
  { apply existsb_exists in Hop as (o & Hin & Ho).
    apply andb_true_iff in Ho as [Ho Hn]. apply negb_true_iff in Hn.
    unfold assert_scan.
    apply (fold_left_reaches _ (fun st => otruthy (snd (fst st)) = true) doc o).
    - intros st t Hin'. by apply assert_step_keeps, Hne.
    - done.
    - intros st. rewrite assert_step_op by done. simpl. by apply Hne. }
  assert (otruthy (snd (assert_scan doc)) = true) as Hr.
  { apply existsb_exists in Hobj as (r & Hin & Hr).
    apply andb_true_iff in Hr as [Hr Hro].
    apply andb_true_iff in Hr as [Hr Hrc].
    apply negb_true_iff in Hro. apply negb_true_iff in Hrc.
    unfold assert_scan.
    apply (fold_left_reaches _ (fun st => otruthy (snd st) = true) doc r).
    - intros st t Hin'. by apply assert_step_keeps, Hne.
    - done.
    - intros st. rewrite assert_step_right by done. simpl. by apply Hne. }
  unfold _parse_assert_step. fold doc.
  destruct (assert_scan doc) as [[[c l] o] r]. simpl in Hl, Ho, Hr.
  rewrite Hl, Ho, Hr.
  apply otruthy_Some in Hl as (l' & -> & _).
  apply otruthy_Some in Ho as (o' & -> & _).
  apply otruthy_Some in Hr as (r' & -> & _).
  simpl. eauto.
Qed.

End Properties.

(** ** Concrete runs *)

(** C1: a second set sentence rewrites the set step already in [steps].
    With the table annotator, after the first sentence of
    "Set alpha one. Set beta two." the schema reads one set step with the
    fields its extractor wrote, target alpha and value one; when [parse]
    returns, both set steps read target beta and value two. *)
Theorem set_steps_share_one_payload :
  read_steps (parser_after stub_nlp "Set alpha one. Set beta two."
                [stub_span "Set alpha one."]) =
    [SetStep {| target := "alpha"; value := Lit "one" |}] /\
  read_steps (parse stub_nlp __init__ "Set alpha one. Set beta two.") =
    [SetStep {| target := "beta"; value := Lit "two" |};
     SetStep {| target := "beta"; value := Lit "two" |}].
Proof. split; reflexivity. Qed.

(** C4: a name used before its declaration reads as a reference in the
    schema [parse] returns.  In "Set result username. Take an input
    username. Set result username." the first sentence comes before the
    declaration and its extractor writes the literal "username"; the
    third sentence comes after it and writes the reference into the same
    payload, so when [parse] returns both set steps read
    [{get: username}]. *)
Theorem later_reference_rewrites_earlier_literal :
  read_steps
    (parser_after stub_nlp_more
       "Set result username. Take an input username. Set result username."
       [stub_span "Set result username."]) =
    [SetStep {| target := "result"; value := Lit "username" |}] /\
  omap (declared_input stub_nlp_more) [stub_span "Set result username."] = [] /\
  read_steps
    (parse stub_nlp_more __init__
       "Set result username. Take an input username. Set result username.") =
    [SetStep {| target := "result"; value := Get "username" |};
     SetStep {| target := "result"; value := Get "username" |}].
Proof. repeat split; reflexivity. Qed.

(** C10: a second [parse] call on the same parser appends to the steps of
    the first, and rewrites them.  After "Set alpha one." the schema reads
    one set step, alpha / one; after "Set beta two." on the same parser
    [steps] has two entries and both read beta / two: the result does not
    hold the step of the first text. *)
Theorem second_call_rewrites_first_steps :
  read_steps (parse stub_nlp __init__ "Set alpha one.") =
    [SetStep {| target := "alpha"; value := Lit "one" |}] /\
  read_steps (parse stub_nlp __init__ "Set beta two.") =
    [SetStep {| target := "beta"; value := Lit "two" |}] /\
  steps (schema (parse stub_nlp (parse stub_nlp __init__ "Set alpha one.")
                   "Set beta two.")) = [RSet; RSet] /\
  read_steps (parse stub_nlp (parse stub_nlp __init__ "Set alpha one.")
                "Set beta two.") =
    [SetStep {| target := "beta"; value := Lit "two" |};
     SetStep {| target := "beta"; value := Lit "two" |}].
Proof. repeat split; reflexivity. Qed.

(** C3 as stated fails: in "age > 18 check." the four components are all
    present, the nominal subject before the cue; the sentence is routed to
    the assert extractor, which returns no step. *)
Lemma assert_subject_before_cue_no_step :
  classify "age > 18 check." = Some ToAssert /\
  has_assert_components (tokens (stub_nlp "age > 18 check.")) = true /\
  _parse_assert_step stub_nlp __init__ (stub_span "age > 18 check.") =
    (__init__, None).
Proof. repeat split; reflexivity. Qed.

(** "check age > 18." has the cue first: a step is returned. *)
Lemma assert_step_when_cue_precedes_subject_witness :
  exists p',
    _parse_assert_step stub_nlp __init__ (stub_span "check age > 18.") =
    (p', Some RAssert).
Proof.
  apply (assert_step_when_cue_precedes_subject stub_nlp __init__
           (stub_span "check age > 18.")
           [] (tok "check" "check" "VERB" "ROOT" 0)
           [] (tok "age" "age" "NOUN" "nsubj" 0)
           [tok ">" ">" "SYM" "dep" 0; tok "18" "18" "NUM" "attr" 0;
            tok "." "." "PUNCT" "punct" 0]);
    reflexivity.
Defined.

(** An input and a context variable declared without a type, and a
    context variable declared as an array. *)
Lemma declaration_type_defaults_witness :
  (exists d,
     inputs (schema (_parse_input stub_nlp __init__
                       (stub_span "Take an input username."))) !! "username"
       = Some d /\ type_ d = "string") /\
  schema_context (schema (_parse_context stub_nlp __init__
                     (stub_span "Define a context variable result."))) !! "result"
    = Some "string" /\
  context (schema (_parse_context stub_nlp __init__
                     (stub_span "Define a context variable result."))) !! "result"
    = Some EmptyStr /\
  context (schema (_parse_context stub_nlp __init__
                     (stub_span "Define a context variable items array."))) !! "items"
    = Some EmptyList.
Proof.
  destruct (declaration_type_defaults stub_nlp) as [Hin Hctx].
  destruct (Hctx __init__ (stub_span "Define a context variable result.")
              "result" "string" eq_refl ltac:(discriminate))
    as (_ & Hty & Hstr & _).
  destruct (Hctx __init__ (stub_span "Define a context variable items array.")
              "items" "array" eq_refl ltac:(discriminate))
    as (_ & _ & _ & Harr & _).
  split; [|split; [|split]].
  - apply (Hin __init__ (stub_span "Take an input username.") "username");
      [reflexivity|discriminate|reflexivity].
  - exact Hty.
  - exact (Hstr eq_refl).
  - exact (Harr eq_refl).
Defined.


(** A text with a function verb in upper case, a loop, a log and a set
    sentence. *)
Example parse_workflow_text :
  snapshot (parse stub_nlp __init__
    "CREATE a workflow. item loop items. Print the username. Set alpha one.") =
  {| fs_function := "CreateWorkflow";
     fs_inputs := ∅;
     fs_schema_context := ∅;
     fs_context := ∅;
     fs_steps :=
       [ForEachStep {| source := "items"; as_ := "item"; body := [] |};
        LogStep {| level := "info"; log_message := [Lit "username"] |};
        SetStep {| target := "alpha"; value := Lit "one" |}] |}.
Proof. reflexivity. Qed.

(** The same text parsed twice by one parser: the second call appends to
    the steps of the first. *)
Example parse_twice_on_one_parser :
  steps (schema (parse stub_nlp
                   (parse stub_nlp __init__ "Set alpha one. Set beta two.")
                   "Set alpha one. Set beta two.")) =
  [RSet; RSet; RSet; RSet].
Proof. reflexivity. Qed.

(** An input declared by an earlier call on the same parser is known to a
    later call. *)
Example input_known_to_later_call :
  read_steps (parse stub_nlp
                (parse stub_nlp __init__ "Take an input username.")
                "Set result username.") =
  [SetStep {| target := "result"; value := Get "username" |}].
Proof. reflexivity. Qed.

(** Two runs of the wrapper on one text: same schema, successive ids. *)
Example generate_two_runs :
  snapshot (artifact_schema (fst (generate_jsonflow_from_text stub_nlp stub_uuid4
                                    "Set alpha one. Set beta two." 0))) =
  snapshot (artifact_schema (fst (generate_jsonflow_from_text stub_nlp stub_uuid4
                                    "Set alpha one. Set beta two." 1))) /\
  artifact_id (fst (generate_jsonflow_from_text stub_nlp stub_uuid4
                      "Set alpha one. Set beta two." 0)) = "id" /\
  artifact_id (fst (generate_jsonflow_from_text stub_nlp stub_uuid4
                      "Set alpha one. Set beta two." 1)) = "iid".
Proof. repeat split. Qed.

(** ** Further properties of the parser *)

Section MoreProperties.

Variable nlp : string -> Doc.

(** *** Which sentences append a step *)

Lemma _parse_set_step_finds p sent :
  snd (_parse_set_step nlp p sent) =
  if finds_structure nlp sent ToSet then Some RSet else None.
Proof.
  unfold _parse_set_step, finds_structure.
  destruct (set_scan _) as [[tg|] [v|]]; simpl;
    repeat (destruct (truthy _); simpl); done.
Qed.

Lemma _parse_assert_step_finds p sent :
  snd (_parse_assert_step nlp p sent) =
  if finds_structure nlp sent ToAssert then Some RAssert else None.
Proof.
  unfold _parse_assert_step, finds_structure.
  destruct (assert_scan _) as [[[c [l|]] [o|]] [r|]]; simpl;
    repeat (destruct (truthy _); simpl); done.
Qed.

Lemma _parse_log_step_finds p sent :
  snd (_parse_log_step nlp p sent) =
  if finds_structure nlp sent ToLog then Some RLog else None.
Proof.
  unfold _parse_log_step, finds_structure. by destruct (log_scan _).
Qed.

Lemma _parse_foreach_step_finds p sent :
  snd (_parse_foreach_step nlp p sent) =
  if finds_structure nlp sent ToForEach then Some RForEach else None.
Proof.
  unfold _parse_foreach_step, finds_structure.
  destruct (foreach_scan _) as [[src|] [it|]]; simpl;
    repeat (destruct (truthy _); simpl); done.
Qed.

Lemma append_if_step_steps r :
  steps (schema (append_if_step r)) =
  steps (schema (fst r)) ++ match snd r with Some st => [st] | None => [] end.
Proof. destruct r as [p [st|]]; simpl; by rewrite ?app_nil_r. Qed.

Lemma process_sentence_appends p sent :
  steps (schema (process_sentence nlp p sent)) =
  steps (schema p) ++
  match sentence_step nlp sent with
  | Some k => [k]
  | None => []
  end.
Proof.
  rewrite process_sentence_dispatch. unfold dispatch, sentence_step.
  destruct (classify _) as [r|]; [|by rewrite app_nil_r].
  destruct r; simpl run_extractor.
  - rewrite (proj1 (proj2 (proj2 (_parse_input_frame nlp p sent)))).
    by rewrite app_nil_r.
  - rewrite append_if_step_steps, _parse_set_step_schema,
      _parse_set_step_finds.
    by destruct (finds_structure nlp sent ToSet).
  - rewrite append_if_step_steps, _parse_assert_step_schema,
      _parse_assert_step_finds.
    by destruct (finds_structure nlp sent ToAssert).
  - rewrite append_if_step_steps, _parse_log_step_schema,
      _parse_log_step_finds.
    by destruct (finds_structure nlp sent ToLog).
  - rewrite append_if_step_steps, _parse_foreach_step_schema,
      _parse_foreach_step_finds.
    by destruct (finds_structure nlp sent ToForEach).
  - rewrite (proj1 (proj2 (proj2 (_parse_context_frame nlp p sent)))).
    by rewrite app_nil_r.
Qed.

Lemma fold_process_appends ss p :
  steps (schema (fold_left (process_sentence nlp) ss p)) =
  steps (schema p) ++ omap (sentence_step nlp) ss.
Proof.
  revert p. induction ss as [|s ss IH]; intros p; simpl.
  - by rewrite app_nil_r.
  - rewrite IH, process_sentence_appends, <- app_assoc.
    by destruct (sentence_step nlp s).
Qed.

Lemma length_omap_le {A B} (f : A -> option B) l :
  length (omap f l) <= length l.
Proof.
  unfold omap. induction l as [|a l IH]; simpl; [lia|].
  destruct (f a); simpl; lia.
Qed.

(** X1: [parse] appends to [steps], in sentence order, one reference for
    each sentence that is routed to a step extractor which finds its
    components, and nothing for any other sentence; so a call adds at most
    as many steps as the text has sentences. *)
Theorem parse_steps_in_sentence_order p text_ :
  steps (schema (parse nlp p text_)) =
    steps (schema p) ++ omap (sentence_step nlp) (sents (nlp text_)) /\
  length (steps (schema (parse nlp p text_))) <=
    length (steps (schema p)) + length (sents (nlp text_)).
Proof.
  assert (steps (schema (parse nlp p text_)) =
          steps (schema p) ++ omap (sentence_step nlp) (sents (nlp text_))) as H.
  { unfold parse, _process_sentences. by rewrite fold_process_appends. }
  split; [done|]. rewrite H, length_app.
  pose proof (length_omap_le (sentence_step nlp) (sents (nlp text_))). lia.
Qed.

(** *** Sentences without effect *)

Lemma is_skipped_no_effect p sent :
  is_skipped nlp sent = true -> process_sentence nlp p sent = p.
Proof.
  unfold is_skipped. rewrite process_sentence_dispatch. unfold dispatch.
  destruct (classify _) as [r|]; [|done].
  intros H. apply negb_true_iff in H. by apply no_structure_no_effect.
Qed.

(** X2: when every sentence of the text either contains no cue phrase or
    is routed to an extractor that does not find its components, [parse]
    changes nothing in the parser but [function]: inputs, context, steps
    and step templates are as before the call. *)
Theorem parse_skipped_text_only_sets_function p text_ :
  forallb (is_skipped nlp) (sents (nlp text_)) = true ->
  parse nlp p text_ = set_function p (_generate_function_name (nlp text_)).
Proof.
  unfold parse, _process_sentences.
  generalize (set_function p (_generate_function_name (nlp text_))).
  induction (sents (nlp text_)) as [|s ss IH]; intros q H; simpl; [done|].
  simpl in H. apply andb_true_iff in H as [Hs Hss].
  rewrite is_skipped_no_effect by done. by apply IH.
Qed.
(** *** What a sentence writes into the declarations *)

Lemma declared_entry_name sent :
  declared_input nlp sent = fst <$> declared_entry nlp sent.
Proof.
  unfold declared_input, declared_entry.
  destruct (contains "input" _); [|done].
  destruct (input_scan _) as [[[name|] ty] d]; simpl; [|done].
  by destruct (truthy name).
Qed.

Lemma process_sentence_inputs p sent :
  inputs (schema (process_sentence nlp p sent)) =
  match declared_entry nlp sent with
  | Some (name, d) => <[name := d]> (inputs (schema p))
  | None => inputs (schema p)
  end.
Proof.
  destruct (step_route_schema nlp p sent) as (Hs & Ha & Hl & Hf).
  destruct Hs as (_ & Hs & _), Ha as (_ & Ha & _), Hl as (_ & Hl & _),
           Hf as (_ & Hf & _).
  unfold process_sentence, declared_entry.
  destruct (contains "input" _).
  - unfold _parse_input.
    destruct (input_scan _) as [[[name|] ty] d]; simpl; [|done].
    by destruct (truthy name).
  - repeat (destruct (_ || _));
      by rewrite ?Hs, ?Ha, ?Hl, ?Hf,
                 ?(proj2 (proj2 (proj2 (_parse_context_frame nlp p sent)))).
Qed.

Lemma process_sentence_contexts p sent :
  schema_context (schema (process_sentence nlp p sent)) =
    match declared_context_entry nlp sent with
    | Some (name, ty) => <[name := ty]> (schema_context (schema p))
    | None => schema_context (schema p)
    end /\
  context (schema (process_sentence nlp p sent)) =
    match declared_context_entry nlp sent with
    | Some (name, ty) => <[name := context_default ty]> (context (schema p))
    | None => context (schema p)
    end.
Proof.
  destruct (step_route_schema nlp p sent) as (Hs & Ha & Hl & Hf).
  destruct Hs as (_ & _ & Hs & Hs'), Ha as (_ & _ & Ha & Ha'),
           Hl as (_ & _ & Hl & Hl'), Hf as (_ & _ & Hf & Hf').
  rewrite process_sentence_dispatch. unfold dispatch, declared_context_entry.
  destruct (classify _) as [r|]; [|done].
  destruct r; simpl run_extractor;
    rewrite ?Hs, ?Hs', ?Ha, ?Ha', ?Hl, ?Hl', ?Hf, ?Hf'; try done.
  - by destruct (_parse_input_frame nlp p sent) as (_ & _ & _ & -> & ->).
  - unfold _parse_context.
    destruct (context_scan _) as [[name|] ty]; simpl; [|done].
    by destruct (truthy name).
Qed.

Lemma fold_process_inputs_other ss p n :
  existsb (fun s => bool_decide (declared_input nlp s = Some n)) ss = false ->
  inputs (schema (fold_left (process_sentence nlp) ss p)) !! n =
  inputs (schema p) !! n.
Proof.
  revert p. induction ss as [|s ss IH]; intros p H; simpl; [done|].
  simpl in H. apply orb_false_iff in H as [Hs Hss].
  rewrite IH by done. rewrite process_sentence_inputs.
  apply bool_decide_eq_false in Hs. rewrite declared_entry_name in Hs.
  destruct (declared_entry nlp s) as [[name d]|]; [|done].
  rewrite lookup_insert_ne; [done|]. intros ->. by apply Hs.
Qed.

(** X3: when a sentence of the text declares the input [n] and no later
    sentence of the text declares [n] again, the schema [parse] returns
    maps [n] to the declaration of that sentence: an input declared twice
    keeps its last declaration. *)
Theorem parse_input_last_declaration p text_ pre s post n d :
  sents (nlp text_) = pre ++ s :: post ->
  declared_entry nlp s = Some (n, d) ->
  existsb (fun s' => bool_decide (declared_input nlp s' = Some n)) post = false ->
  inputs (schema (parse nlp p text_)) !! n = Some d.
Proof.
  intros Hs Hd Hpost. unfold parse, _process_sentences.
  rewrite Hs, fold_left_app. simpl.
  rewrite fold_process_inputs_other by done.
  rewrite process_sentence_inputs, Hd. apply lookup_insert_eq.
Qed.

(** X4: [parse] leaves alone the entry of every input name that no
    sentence of the text declares: nothing is ever removed from [inputs],
    and a name is written only by a sentence that declares it. *)
Theorem parse_keeps_undeclared_inputs p text_ n :
  existsb (fun s => bool_decide (declared_input nlp s = Some n))
          (sents (nlp text_)) = false ->
  inputs (schema (parse nlp p text_)) !! n = inputs (schema p) !! n.
Proof.
  intros H. unfold parse, _process_sentences.
  by rewrite fold_process_inputs_other.
Qed.

(** *** The context values mirror the context declarations *)

Lemma process_sentence_mirrors p sent :
  mirrors p -> mirrors (process_sentence nlp p sent).
Proof.
  intros Hm n. destruct (process_sentence_contexts p sent) as [-> ->].
  destruct (declared_context_entry nlp sent) as [[name ty]|]; [|apply Hm].
  destruct (decide (name = n)) as [->|Hne].
  - by rewrite !lookup_insert_eq.
  - rewrite !lookup_insert_ne by done. apply Hm.
Qed.

Lemma parse_mirrors p text_ : mirrors p -> mirrors (parse nlp p text_).
Proof.
  intros Hm. unfold parse, _process_sentences.
  assert (mirrors (set_function p (_generate_function_name (nlp text_))))
    as H by exact Hm.
  revert H. generalize (set_function p (_generate_function_name (nlp text_))).
  induction (sents (nlp text_)) as [|s ss IH]; intros q Hq; simpl; [done|].
  apply IH. by apply process_sentence_mirrors.
Qed.
Lemma fold_parse_invariant (P : Parser -> Prop) texts p :
  (forall q t, P q -> P (parse nlp q t)) -> P p ->
  P (fold_left (parse nlp) texts p).
Proof.
  intros Hstep. revert p.
  induction texts as [|t texts IH]; intros p Hp; simpl; [done|].
  apply IH. by apply Hstep.
Qed.

Lemma parse_invariant (P : Parser -> Prop) p text_ :
  (forall q f, P q -> P (set_function q f)) ->
  (forall q s, P q -> P (process_sentence nlp q s)) ->
  P p -> P (parse nlp p text_).
Proof.
  intros Hf Hs Hp. unfold parse, _process_sentences.
  apply fold_left_preserves; [|by apply Hf].
  intros st t _. apply Hs.
Qed.

(** X5: in every parser reached from a new one by [parse] calls, the keys
    of [context] are the declared context names, and each holds the
    default value of its declared type: "" for "string", the empty list
    for "array", the empty dictionary otherwise. *)
Theorem context_mirrors_declarations texts n :
  context (schema (fold_left (parse nlp) texts __init__)) !! n =
  match schema_context (schema (fold_left (parse nlp) texts __init__)) !! n with
  | Some ty =>
      Some (if String.eqb ty "string" then EmptyStr
            else if String.eqb ty "array" then EmptyList
            else EmptyDict)
  | None => None
  end.
Proof.
  assert (mirrors (fold_left (parse nlp) texts __init__)) as H.
  { apply fold_parse_invariant; [|done].
    intros q t Hq. apply parse_invariant; [done| |done].
    intros q' s. apply process_sentence_mirrors. }
  rewrite (H n). by destruct (schema_context _ !! n).
Qed.

(** *** Recorded types *)

Lemma input_scan_step_type doc st t :
  In (snd (fst st)) variable_types ->
  In (snd (fst (input_scan_step doc st t))) variable_types.
Proof.
  destruct st as [[name ty] d]. unfold input_scan_step.
  destruct (_ && _); [done|].
  destruct (str_in (lower (text t)) variable_types) eqn:Hty.
  - intros _. cbn [fst snd]. by apply str_in_In.
  - by destruct (_ || _).
Qed.

Lemma context_scan_step_type doc st t :
  In (snd st) variable_types ->
  In (snd (context_scan_step doc st t)) variable_types.
Proof.
  destruct st as [name ty]. unfold context_scan_step.
  destruct (_ && _); [done|].
  destruct (str_in (lower (text t)) variable_types) eqn:Hty; [|done].
  intros _. cbn [fst snd]. by apply str_in_In.
Qed.

Lemma string_is_variable_type : In "string" variable_types.
Proof. by left. Qed.

Lemma declared_entry_type sent n d :
  declared_entry nlp sent = Some (n, d) -> In (type_ d) variable_types.
Proof.
  unfold declared_entry.
  destruct (contains "input" _); [|done].
  pose proof (fold_left_preserves
    (input_scan_step (tokens (nlp (span_text sent))))
    (fun st => In (snd (fst st)) variable_types)
    (tokens (nlp (span_text sent))) (None, "string", "")
    (fun st t _ => input_scan_step_type _ st t) string_is_variable_type) as H.
  fold (input_scan (tokens (nlp (span_text sent)))) in H.
  destruct (input_scan _) as [[[name|] ty] d']; [|done].
  destruct (truthy name); [|done]. by intros [= <- <-].
Qed.

Lemma declared_context_entry_type sent n ty :
  declared_context_entry nlp sent = Some (n, ty) -> In ty variable_types.
Proof.
  unfold declared_context_entry.
  destruct (classify _) as [[| | | | |]|]; try done.
  pose proof (fold_left_preserves
    (context_scan_step (tokens (nlp (span_text sent))))
    (fun st => In (snd st) variable_types)
    (tokens (nlp (span_text sent))) (None, "string")
    (fun st t _ => context_scan_step_type _ st t) string_is_variable_type) as H.
  fold (context_scan (tokens (nlp (span_text sent)))) in H.
  destruct (context_scan _) as [[name|] ty']; [|done].
  destruct (truthy name); [|done]. by intros [= <- <-].
Qed.

Lemma process_sentence_types p sent :
  types_declared p -> types_declared (process_sentence nlp p sent).
Proof.
  intros [Hi Hc]. split.
  - intros n d. rewrite process_sentence_inputs.
    destruct (declared_entry nlp sent) as [[name d']|] eqn:He; [|apply Hi].
    destruct (decide (name = n)) as [->|Hne].
    + rewrite lookup_insert_eq. intros [= <-].
      by apply declared_entry_type in He.
    + rewrite lookup_insert_ne by done. apply Hi.
  - intros n ty. rewrite (proj1 (process_sentence_contexts p sent)).
    destruct (declared_context_entry nlp sent) as [[name ty']|] eqn:He;
      [|apply Hc].
    destruct (decide (name = n)) as [->|Hne].
    + rewrite lookup_insert_eq. intros [= <-].
      by apply declared_context_entry_type in He.
    + rewrite lookup_insert_ne by done. apply Hc.
Qed.

(** X6: in every parser reached from a new one by [parse] calls, the type
    recorded for each input and for each context variable is one of
    "string", "int", "dict", "array", "bool": a type word is recorded in
    lower case and no other word is ever taken as a type. *)
Theorem recorded_types_are_variable_types texts :
  Forall (fun e => In (type_ (snd e)) variable_types)
    (map_to_list (inputs (schema (fold_left (parse nlp) texts __init__)))) /\
  Forall (fun e => In (snd e) variable_types)
    (map_to_list
       (schema_context (schema (fold_left (parse nlp) texts __init__)))).
Proof.
  assert (types_declared (fold_left (parse nlp) texts __init__)) as [Hi Hc].
  { apply fold_parse_invariant.
    - intros q t Hq. apply parse_invariant; [done| |done].
      intros q' s. apply process_sentence_types.
    - split; intros n d; cbn [__init__ schema inputs schema_context];
        by rewrite lookup_empty. }
  split; apply List.Forall_forall; intros [n x] Hin;
    apply list_elem_of_In, elem_of_map_to_list in Hin; cbn [snd].
  - by apply (Hi n).
  - by apply (Hc n).
Qed.
(** *** What a step extractor writes *)

Lemma _parse_set_step_found p sent :
  finds_structure nlp sent ToSet = true ->
  exists tg v,
    set_scan (tokens (nlp (span_text sent))) = (Some tg, Some v) /\
    tg <> "" /\ v <> "" /\
    _parse_set_step nlp p sent =
      (set_templates p
         {| tpl_set := {| target := tg; value := value_ref p v |};
            tpl_assert := tpl_assert (step_templates p);
            tpl_log := tpl_log (step_templates p);
            tpl_forEach := tpl_forEach (step_templates p) |},
       Some RSet).
Proof.
  unfold finds_structure, _parse_set_step.
  destruct (set_scan _) as [tg v]. cbn [fst snd]. intros H. rewrite H.
  apply andb_true_iff in H as [Htg Hv].
  apply otruthy_Some in Htg as (tg' & -> & Htg).
  apply otruthy_Some in Hv as (v' & -> & Hv).
  by exists tg', v'.
Qed.

Lemma _parse_assert_step_found p sent :
  finds_structure nlp sent ToAssert = true ->
  exists c l o r,
    assert_scan (tokens (nlp (span_text sent))) = (c, Some l, Some o, Some r) /\
    l <> "" /\ In o comparison_ops /\ r <> "" /\
    _parse_assert_step nlp p sent =
      (set_templates p
         {| tpl_set := tpl_set (step_templates p);
            tpl_assert :=
              {| condition_compare :=
                   {| cmp_left := value_ref p l; cmp_op := o;
                      cmp_right := value_ref p r |};
                 assert_message :=
                   l +:+ " " +:+ o +:+ " " +:+ r +:+ " check failed" |};
            tpl_log := tpl_log (step_templates p);
            tpl_forEach := tpl_forEach (step_templates p) |},
       Some RAssert).
Proof.
  unfold finds_structure, _parse_assert_step.
  destruct (assert_scan _) as [[[c l] o] r] eqn:Hscan. intros H. rewrite H.
  apply andb_true_iff in H as [H Hr]. apply andb_true_iff in H as [Hl Ho].
  apply otruthy_Some in Hl as (l' & -> & Hl).
  apply otruthy_Some in Ho as (o' & -> & Ho).
  apply otruthy_Some in Hr as (r' & -> & Hr).
  exists c, l', o', r'. repeat split; try done.
  by apply assert_scan_op in Hscan.
Qed.

Lemma _parse_log_step_found p sent :
  finds_structure nlp sent ToLog = true ->
  log_scan (tokens (nlp (span_text sent))) <> [] /\
  _parse_log_step nlp p sent =
    (set_templates p
       {| tpl_set := tpl_set (step_templates p);
          tpl_assert := tpl_assert (step_templates p);
          tpl_log :=
            {| level := level (tpl_log (step_templates p));
               log_message :=
                 map (value_ref p)
                     (log_scan (tokens (nlp (span_text sent)))) |};
          tpl_forEach := tpl_forEach (step_templates p) |},
     Some RLog).
Proof.
  unfold finds_structure, _parse_log_step.
  destruct (log_scan _) as [|part parts]; [done|]. by intros _.
Qed.

Lemma _parse_foreach_step_found p sent :
  finds_structure nlp sent ToForEach = true ->
  exists src it,
    foreach_scan (tokens (nlp (span_text sent))) = (Some src, Some it) /\
    src <> "" /\ it <> "" /\
    _parse_foreach_step nlp p sent =
      (set_templates p
         {| tpl_set := tpl_set (step_templates p);
            tpl_assert := tpl_assert (step_templates p);
            tpl_log := tpl_log (step_templates p);
            tpl_forEach := {| source := src; as_ := it; body := [] |} |},
       Some RForEach).
Proof.
  unfold finds_structure, _parse_foreach_step.
  destruct (foreach_scan _) as [src it]. cbn [fst snd]. intros H. rewrite H.
  apply andb_true_iff in H as [Hsrc Hit].
  apply otruthy_Some in Hsrc as (src' & -> & Hsrc).
  apply otruthy_Some in Hit as (it' & -> & Hit).
  by exists src', it'.
Qed.

(** A sentence is passed over, or declares an input, or declares a context
    variable, or rewrites one payload and appends a reference to it. *)
Lemma process_sentence_cases p sent :
  (sentence_step nlp sent = None /\
   step_templates (process_sentence nlp p sent) = step_templates p /\
   steps (schema (process_sentence nlp p sent)) = steps (schema p)) \/
  (exists k T',
     sentence_step nlp sent = Some k /\
     process_sentence nlp p sent = append_step (set_templates p T') k /\
     (forall k', k' <> k -> deref T' k' = deref (step_templates p) k') /\
     level (tpl_log T') = level (tpl_log (step_templates p)) /\
     (body (tpl_forEach (step_templates p)) = [] ->
      body (tpl_forEach T') = []) /\
     (forall n, In n (step_names (deref T' k)) ->
                has_key (inputs (schema p)) n = true) /\
     (level (tpl_log (step_templates p)) = "info" ->
      step_shape (deref T' k))).
Proof.
  pose proof (process_sentence_appends p sent) as Happ.
  rewrite process_sentence_dispatch in *. unfold dispatch, sentence_step in *.
  destruct (classify _) as [r|]; [|left; by rewrite app_nil_r in Happ].
  destruct (finds_structure nlp sent r) eqn:Hfind.
  2:{ left. rewrite no_structure_no_effect by done.
      destruct r; rewrite ?Hfind; done. }
  destruct r; simpl run_extractor in *; rewrite ?Hfind in *.
  - left. rewrite app_nil_r in Happ.
    by rewrite (proj1 (_parse_input_frame nlp p sent)).
  - right. destruct (_parse_set_step_found p sent Hfind)
      as (tg & v & _ & Htg & Hv & ->).
    eexists RSet, _. split; [done|]. split; [reflexivity|].
    split_and!.
    + by intros [] Hk.
    + done.
    + done.
    + unfold value_ref. cbn [deref tpl_set step_names value].
      intros n Hin. destruct (has_key _ v) eqn:Hk; simpl in Hin; [|done].
      by destruct Hin as [<-|[]].
    + intros _. cbn [deref tpl_set step_shape value target]. unfold value_ref.
      by destruct (has_key _ v).
  - right. destruct (_parse_assert_step_found p sent Hfind)
      as (c & l & o & r & _ & Hl & Ho & Hr & ->).
    eexists RAssert, _. split; [done|]. split; [reflexivity|].
    split_and!.
    + by intros [] Hk.
    + done.
    + done.
    + unfold value_ref.
      cbn [deref tpl_assert step_names condition_compare cmp_left cmp_right].
      intros n Hin. apply in_app_or in Hin as [Hin|Hin].
      * destruct (has_key _ l) eqn:Hk; simpl in Hin; [|done].
        by destruct Hin as [<-|[]].
      * destruct (has_key _ r) eqn:Hk; simpl in Hin; [|done].
        by destruct Hin as [<-|[]].
    + intros _.
      cbn [deref tpl_assert step_shape condition_compare cmp_left cmp_right
             cmp_op assert_message]. unfold value_ref.
      by destruct (has_key _ l), (has_key _ r).
  - right. destruct (_parse_log_step_found p sent Hfind) as (Hne & ->).
    eexists RLog, _. split; [done|]. split; [reflexivity|].
    split_and!.
    + by intros [] Hk.
    + done.
    + done.
    + cbn [deref tpl_log step_names log_message].
      intros n Hin. apply in_flat_map in Hin as (vr & Hvr & Hn).
      apply in_map_iff in Hvr as (part & <- & _).
      unfold value_ref in Hn.
      destruct (has_key _ part) eqn:Hk; simpl in Hn; [|done].
      by destruct Hn as [<-|[]].
    + intros Hlevel. cbn [deref tpl_log step_shape log_message level].
      split; [done|]. by destruct (log_scan _).
  - right. destruct (_parse_foreach_step_found p sent Hfind)
      as (src & it & _ & Hsrc & Hit & ->).
    eexists RForEach, _. split; [done|]. split; [reflexivity|].
    split_and!; try done. by intros [] Hk.
  - left. rewrite app_nil_r in Happ.
    by rewrite (proj1 (_parse_context_frame nlp p sent)).
Qed.
(** *** Payloads change only under a step of their own kind *)

Lemma process_sentence_other_payload p sent k :
  yields nlp k sent = false ->
  deref (step_templates (process_sentence nlp p sent)) k =
  deref (step_templates p) k.
Proof.
  unfold yields. intros H. apply bool_decide_eq_false in H.
  destruct (process_sentence_cases p sent)
    as [(_ & -> & _)|(k0 & T' & Hk0 & -> & Hframe & _)]; [done|].
  cbn [append_step set_templates step_templates]. apply Hframe.
  intros ->. by apply H.
Qed.

Lemma fold_process_other_payload ss p k :
  existsb (yields nlp k) ss = false ->
  deref (step_templates (fold_left (process_sentence nlp) ss p)) k =
  deref (step_templates p) k.
Proof.
  revert p. induction ss as [|s ss IH]; intros p H; simpl; [done|].
  simpl in H. apply orb_false_iff in H as [Hs Hss].
  rewrite IH by done. by apply process_sentence_other_payload.
Qed.

(** X7: a [parse] call rewrites the payload of a step kind only when some
    sentence of its text appends a step of that kind.  If none does, every
    step of that kind already in the schema reads after the call as it
    read before. *)
Theorem parse_keeps_payload_of_absent_kind p text_ k :
  existsb (yields nlp k) (sents (nlp text_)) = false ->
  deref (step_templates (parse nlp p text_)) k = deref (step_templates p) k.
Proof.
  intros H. unfold parse, _process_sentences.
  by rewrite fold_process_other_payload.
Qed.

(** X8: when [parse] returns, every set step of the schema, whichever
    sentence appended it, reads the target and value extracted from the
    last sentence of the text that appended a set step; the value is a
    reference exactly when an earlier sentence declared it as an input. *)
Theorem set_steps_read_last_set_sentence text_ pre s post :
  sents (nlp text_) = pre ++ s :: post ->
  sentence_step nlp s = Some RSet ->
  existsb (yields nlp RSet) post = false ->
  exists tg v,
    set_scan (tokens (nlp (span_text s))) = (Some tg, Some v) /\
    Forall (fun st =>
              match st with
              | SetStep sp =>
                  sp = {| target := tg;
                          value :=
                            if bool_decide (v ∈ omap (declared_input nlp) pre)
                            then Get v else Lit v |}
              | _ => True
              end)
           (read_steps (parse nlp __init__ text_)).
Proof.
  intros Hs Hstep Hpost.
  assert (finds_structure nlp s ToSet = true) as Hfind.
  { unfold sentence_step in Hstep.
    destruct (classify _) as [[| | | | |]|]; try done;
      by destruct (finds_structure nlp s _). }
  assert (classify (span_text s) = Some ToSet) as Hroute.
  { unfold sentence_step in Hstep.
    destruct (classify _) as [[| | | | |]|]; try done;
      by destruct (finds_structure nlp s _). }
  destruct (_parse_set_step_found (parser_after nlp text_ pre) s Hfind)
    as (tg & v & Hscan & _ & _ & Hres).
  exists tg, v. split; [done|].
  assert (deref (step_templates (parse nlp __init__ text_)) RSet =
          SetStep {| target := tg;
                     value := if bool_decide (v ∈ omap (declared_input nlp) pre)
                              then Get v else Lit v |}) as Hfinal.
  { rewrite (parse_split nlp text_ pre s post Hs).
    rewrite fold_process_other_payload by done.
    rewrite process_sentence_dispatch. unfold dispatch. rewrite Hroute.
    simpl run_extractor. rewrite append_if_step_templates, Hres.
    cbn [fst set_templates step_templates deref tpl_set].
    by rewrite value_ref_after. }
  unfold read_steps. apply List.Forall_forall. intros st Hin.
  apply in_map_iff in Hin as (k & <- & _).
  destruct k; try done. cbn [deref] in *. by injection Hfinal as ->.
Qed.

(** *** References name declared inputs *)

Lemma has_key_insert {V} (m : gmap string V) k k' v :
  has_key m k = true -> has_key (<[k' := v]> m) k = true.
Proof.
  unfold has_key. destruct (decide (k' = k)) as [->|Hne].
  - by rewrite lookup_insert_eq.
  - by rewrite lookup_insert_ne.
Qed.

Lemma process_sentence_keeps_inputs p sent n :
  has_key (inputs (schema p)) n = true ->
  has_key (inputs (schema (process_sentence nlp p sent))) n = true.
Proof.
  rewrite process_sentence_inputs.
  destruct (declared_entry nlp sent) as [[name d]|]; [|done].
  apply has_key_insert.
Qed.

Lemma process_sentence_references p sent :
  references_declared p -> references_declared (process_sentence nlp p sent).
Proof.
  intros Hinv k n Hin. apply process_sentence_keeps_inputs.
  destruct (process_sentence_cases p sent)
    as [(_ & HT & _)|(k0 & T' & _ & Heq & Hframe & _ & _ & Hnames & _)].
  - rewrite HT in Hin. by apply (Hinv k).
  - rewrite Heq in Hin. cbn [append_step set_templates step_templates] in Hin.
    destruct (decide (k = k0)) as [->|Hne].
    + by apply Hnames.
    + rewrite Hframe in Hin by done. by apply (Hinv k).
Qed.

(** X9: in every parser reached from a new one by [parse] calls, each
    [{"get": name}] value of each step of the schema names a key of
    [inputs]: a reference is built only for a declared input, and
    declarations are never removed. *)
Theorem references_name_declared_inputs texts :
  Forall (fun st =>
            Forall (fun n =>
                      is_Some (inputs (schema (fold_left (parse nlp) texts
                                                 __init__)) !! n))
                   (step_names st))
         (read_steps (fold_left (parse nlp) texts __init__)).
Proof.
  assert (references_declared (fold_left (parse nlp) texts __init__)) as H.
  { apply fold_parse_invariant.
    - intros q t Hq. apply parse_invariant; [done| |done].
      intros q' s. apply process_sentence_references.
    - by intros [] n. }
  unfold read_steps. apply List.Forall_forall. intros st Hin.
  apply in_map_iff in Hin as (k & <- & _).
  apply List.Forall_forall. intros n Hn. apply H in Hn.
  unfold has_key in Hn. by destruct (inputs _ !! n).
Qed.

(** *** Every step of a schema has the shape of a step *)

Lemma process_sentence_shaped p sent :
  steps_shaped p -> steps_shaped (process_sentence nlp p sent).
Proof.
  intros (Hlevel & Hbody & Hshape).
  destruct (process_sentence_cases p sent)
    as [(_ & HT & Hsteps)|(k0 & T' & _ & -> & Hframe & Hl & Hb & _ & Hnew)].
  - unfold steps_shaped. by rewrite HT, Hsteps.
  - unfold steps_shaped.
    cbn [append_step set_templates step_templates schema steps].
    split; [by rewrite Hl|]. split; [by apply Hb|].
    intros k Hin. destruct (decide (k = k0)) as [->|Hne].
    + by apply Hnew.
    + rewrite Hframe by done. apply Hshape.
      apply in_app_or in Hin as [Hin|[->|[]]]; done.
Qed.

(** X10: in every parser reached from a new one by [parse] calls, every
    step read from the schema has all its required fields filled: a set
    step has a target and a value; an assert step has both operands, an
    operator of the comparison list, and the message "left op right check
    failed" built from the operand surfaces; a log step has level "info"
    and a non-empty message; a for-each step has a source, a loop variable
    and an empty body. *)
Theorem schema_steps_are_shaped texts :
  Forall step_shape (read_steps (fold_left (parse nlp) texts __init__)).
Proof.
  assert (steps_shaped (fold_left (parse nlp) texts __init__))
    as (_ & _ & H).
  { apply fold_parse_invariant.
    - intros q t Hq. apply parse_invariant; [done| |done].
      intros q' s. apply process_sentence_shaped.
    - by repeat split. }
  unfold read_steps. apply List.Forall_forall. intros st Hin.
  apply in_map_iff in Hin as (k & <- & Hk). by apply H.
Qed.
(** *** Defaults and last-write-wins inside a declaration *)

Lemma input_scan_fold_description doc l st :
  existsb is_object l = false ->
  snd (fold_left (input_scan_step doc) l st) = snd st.
Proof.
  revert st. induction l as [|t l IH]; intros st; simpl; [done|].
  intros H. apply orb_false_iff in H as [Ht Hl].
  rewrite (IH _ Hl). destruct st as [[name ty] d].
  unfold input_scan_step. unfold is_object in Ht. rewrite Ht.
  destruct (_ && _); [done|]. by destruct (str_in _ variable_types).
Qed.

(** X11: an input declared by a sentence with no direct-object or
    attribute token gets the description "Input <name>". *)
Theorem input_description_default sent n d :
  declared_entry nlp sent = Some (n, d) ->
  existsb is_object (tokens (nlp (span_text sent))) = false ->
  description d = "Input " +:+ n.
Proof.
  unfold declared_entry. intros Hd Hno.
  destruct (contains "input" _); [|done].
  pose proof (input_scan_fold_description (tokens (nlp (span_text sent)))
                (tokens (nlp (span_text sent))) (None, "string", "") Hno) as H.
  fold (input_scan (tokens (nlp (span_text sent)))) in H.
  destruct (input_scan _) as [[[name|] ty] d']; [|done].
  simpl in H. subst d'.
  destruct (truthy name); [|done]. by injection Hd as <- <-.
Qed.

Lemma type_token_not_input t :
  is_type_token t = true -> String.eqb (lower (text t)) "input" = false.
Proof.
  unfold is_type_token. rewrite str_in_In. unfold variable_types.
  intros H. repeat (destruct H as [<-|H]; [reflexivity|]). destruct H.
Qed.

Lemma type_token_not_context t :
  is_type_token t = true ->
  str_in (lower (text t)) ["variable"; "context"] = false.
Proof.
  unfold is_type_token. rewrite str_in_In. unfold variable_types.
  intros H. repeat (destruct H as [<-|H]; [reflexivity|]). destruct H.
Qed.

Lemma input_scan_step_type_token doc st t :
  is_type_token t = true ->
  snd (fst (input_scan_step doc st t)) = lower (text t).
Proof.
  intros Ht. destruct st as [[name ty] d]. unfold input_scan_step.
  rewrite (type_token_not_input t Ht). simpl andb. cbv iota.
  unfold is_type_token in Ht. by rewrite Ht.
Qed.

Lemma context_scan_step_type_token doc st t :
  is_type_token t = true ->
  snd (context_scan_step doc st t) = lower (text t).
Proof.
  intros Ht. destruct st as [name ty]. unfold context_scan_step.
  rewrite (type_token_not_context t Ht). simpl andb. cbv iota.
  unfold is_type_token in Ht. by rewrite Ht.
Qed.

(** X12: the type recorded by an input or context declaration is the
    lower-cased surface of the last type token of its sentence: a type
    word always counts as a type, in any letter case, and a later one
    overrides an earlier one. *)
Theorem declaration_type_is_last_type_token sent before t after :
  tokens (nlp (span_text sent)) = before ++ t :: after ->
  is_type_token t = true ->
  existsb is_type_token after = false ->
  (forall n d, declared_entry nlp sent = Some (n, d) ->
               type_ d = lower (text t)) /\
  (forall n ty, declared_context_entry nlp sent = Some (n, ty) ->
                ty = lower (text t)).
Proof.
  intros Hdoc Ht Hafter. split.
  - intros n d. unfold declared_entry.
    destruct (contains "input" _); [|done].
    assert (snd (fst (input_scan (tokens (nlp (span_text sent))))) =
            lower (text t)) as H.
    { unfold input_scan. rewrite Hdoc at 2. rewrite fold_left_app. simpl.
      rewrite input_scan_fold_type by done.
      by apply input_scan_step_type_token. }
    destruct (input_scan _) as [[[name|] ty] d']; [|done].
    destruct (truthy name); [|done]. simpl in H. by intros [= <- <-].
  - intros n ty. unfold declared_context_entry.
    destruct (classify _) as [[| | | | |]|]; try done.
    assert (snd (context_scan (tokens (nlp (span_text sent)))) =
            lower (text t)) as H.
    { unfold context_scan. rewrite Hdoc at 2. rewrite fold_left_app. simpl.
      rewrite context_scan_fold_type by done.
      by apply context_scan_step_type_token. }
    destruct (context_scan _) as [[name|] ty']; [|done].
    destruct (truthy name); [|done]. simpl in H. by intros [= <- <-].
Qed.

(** *** Edge cases of [parse] *)

(** X13: on a text the annotator splits into no sentence at all (the
    empty text, for instance), [parse] on a new parser returns the empty
    schema: function "DefaultWorkflow", no input, no context variable, no
    step. *)
Theorem parse_no_sentence text_ :
  sents (nlp text_) = [] ->
  snapshot (parse nlp __init__ text_) =
  {| fs_function := "DefaultWorkflow";
     fs_inputs := ∅;
     fs_schema_context := ∅;
     fs_context := ∅;
     fs_steps := [] |}.
Proof.
  intros H. unfold parse, _process_sentences, _generate_function_name.
  by rewrite H.
Qed.

(** X14: [parse] overwrites [function] at each call, while it keeps
    everything else: after two calls on one parser the function name is
    that of the second text alone, as if the second text had been parsed
    by a new parser. *)
Theorem function_is_of_last_text p t1 t2 :
  function (schema (parse nlp (parse nlp p t1) t2)) =
  function (schema (parse nlp __init__ t2)).
Proof.
  unfold parse at 1 3, _process_sentences.
  by rewrite !_process_sentences_function.
Qed.
(** *** The cue test is substring containment *)

Lemma prefix_app sub s :
  String.prefix sub s = true <-> exists b, s = sub +:+ b.
Proof.
  revert s. induction sub as [|c sub IH]; intros s.
  - split; [intros _; by exists s|by destruct s].
  - destruct s as [|c' s]; simpl.
    + split; [done|]. by intros (b & Hb).
    + destruct (Ascii.ascii_dec c c') as [->|Hne].
      * rewrite IH. split; intros (b & Hb); exists b; [by rewrite Hb|].
        by injection Hb.
      * split; [done|]. intros (b & Hb). by injection Hb.
Qed.

(** X15: the test [cue in sent.text.lower()] of the router, [contains],
    holds exactly when the cue occurs as a contiguous substring: the text
    is some prefix, then the cue, then some suffix.  So a cue inside a
    longer word routes the sentence as well. *)
Theorem contains_iff_substring sub s :
  contains sub s = true <-> exists a b, s = a +:+ sub +:+ b.
Proof.
  split.
  - induction s as [|c s IH].
    + cbn [contains]. rewrite orb_false_r. intros H.
      apply prefix_app in H as (b & Hb). by exists "", b.
    + cbn [contains]. intros H. apply orb_true_iff in H as [H|H].
      * apply prefix_app in H as (b & Hb). by exists "", b.
      * destruct (IH H) as (a & b & ->). by exists (String c a), b.
  - intros (a & b & ->). induction a as [|c a IH].
    + assert (String.prefix sub (sub +:+ b) = true) as H
        by (apply prefix_app; by exists b).
      change ("" +:+ sub +:+ b) with (sub +:+ b).
      destruct (sub +:+ b); cbn [contains]; by rewrite H.
    + change (String c a +:+ sub +:+ b) with (String c (a +:+ sub +:+ b)).
      cbn [contains]. rewrite IH. apply orb_true_r.
Qed.
(** *** Which tokens an extractor picks *)

Lemma log_scan_fold l acc :
  fold_left log_scan_step l acc = acc ++ map text (List.filter is_log_part l).
Proof.
  revert acc. induction l as [|t l IH]; intros acc; simpl.
  - by rewrite app_nil_r.
  - rewrite IH. unfold log_scan_step. fold (is_log_part t).
    destruct (is_log_part t); [|done]. by rewrite <- app_assoc.
Qed.

(** X23: the log extractor returns a step exactly when the sentence has a
    subject, direct-object or attribute token, and the message of that
    step lists the surfaces of all those tokens in sentence order, each as
    a reference when it names an input declared so far and as a literal
    otherwise. *)
Theorem log_step_message p sent :
  let parts :=
    map text (List.filter is_log_part (tokens (nlp (span_text sent)))) in
  _parse_log_step nlp p sent =
  match parts with
  | [] => (p, None)
  | _ :: _ =>
      (set_templates p
         {| tpl_set := tpl_set (step_templates p);
            tpl_assert := tpl_assert (step_templates p);
            tpl_log :=
              {| level := level (tpl_log (step_templates p));
                 log_message :=
                   map (fun x => if has_key (inputs (schema p)) x
                                 then Get x else Lit x) parts |};
            tpl_forEach := tpl_forEach (step_templates p) |},
       Some RLog)
  end.
Proof.
  intros parts.
  assert (log_scan (tokens (nlp (span_text sent))) = parts) as Hparts
    by apply (log_scan_fold _ []).
  unfold _parse_log_step. rewrite Hparts. by destruct parts.
Qed.

Lemma set_scan_step_cue doc st t :
  is_set_cue doc t = true ->
  set_scan_step doc st t = (Some (text (head_of doc t)), snd st).
Proof.
  intros H. destruct st as [tg v]. unfold set_scan_step.
  unfold is_set_cue in H. by rewrite H.
Qed.

Lemma set_scan_step_value doc st t :
  is_set_value doc t = true ->
  set_scan_step doc st t = (fst st, Some (text t)).
Proof.
  intros H. destruct st as [tg v]. unfold set_scan_step.
  unfold is_set_value, is_set_cue, is_object in H.
  apply andb_true_iff in H as [H1 H2]. apply negb_true_iff in H1.
  by rewrite H1, H2.
Qed.

Lemma set_scan_fold_target doc l st :
  existsb (is_set_cue doc) l = false ->
  fst (fold_left (set_scan_step doc) l st) = fst st.
Proof.
  revert st. induction l as [|t l IH]; intros st H; simpl; [done|].
  simpl in H. apply orb_false_iff in H as [Ht Hl]. rewrite IH by done.
  destruct st as [tg v]. unfold set_scan_step.
  unfold is_set_cue in Ht. rewrite Ht. by destruct (_ || _).
Qed.

Lemma set_scan_fold_value doc l st :
  existsb (is_set_value doc) l = false ->
  snd (fold_left (set_scan_step doc) l st) = snd st.
Proof.
  revert st. induction l as [|t l IH]; intros st H; simpl; [done|].
  simpl in H. apply orb_false_iff in H as [Ht Hl]. rewrite IH by done.
  destruct st as [tg v]. unfold set_scan_step.
  unfold is_set_value, is_set_cue, is_object in Ht.
  destruct (str_in (lower (text t)) ["set"; "assign"] &&
            String.eqb (pos_ (head_of doc t)) "NOUN"); [done|].
  simpl in Ht. by rewrite Ht.
Qed.

(** X24: the set extractor takes the target from the last "set"/"assign"
    token that has a noun as head (the surface of that head) and the value
    from the last direct-object or attribute token that is not such a cue;
    when both surfaces are non-empty it returns a set step with that
    target and that value, a reference when the value names an input
    declared so far. *)
Theorem set_step_takes_last_cue_and_last_object p sent b1 cue a1 b2 obj a2 :
  let doc := tokens (nlp (span_text sent)) in
  doc = b1 ++ cue :: a1 ->
  is_set_cue doc cue = true ->
  existsb (is_set_cue doc) a1 = false ->
  doc = b2 ++ obj :: a2 ->
  is_set_value doc obj = true ->
  existsb (is_set_value doc) a2 = false ->
  text (head_of doc cue) <> "" ->
  text obj <> "" ->
  _parse_set_step nlp p sent =
    (set_templates p
       {| tpl_set :=
            {| target := text (head_of doc cue);
               value := if has_key (inputs (schema p)) (text obj)
                        then Get (text obj) else Lit (text obj) |};
          tpl_assert := tpl_assert (step_templates p);
          tpl_log := tpl_log (step_templates p);
          tpl_forEach := tpl_forEach (step_templates p) |},
     Some RSet).
Proof.
  intros doc Hd1 Hcue Ha1 Hd2 Hobj Ha2 Htg Hv.
  assert (set_scan doc = (Some (text (head_of doc cue)), Some (text obj)))
    as Hscan.
  { apply injective_projections.
    - unfold set_scan. rewrite Hd1 at 2. rewrite fold_left_app. simpl.
      rewrite set_scan_fold_target by done.
      by rewrite set_scan_step_cue.
    - unfold set_scan. rewrite Hd2 at 2. rewrite fold_left_app. simpl.
      rewrite set_scan_fold_value by done.
      by rewrite set_scan_step_value. }
  unfold _parse_set_step. fold doc. rewrite Hscan. simpl.
  apply truthy_nonempty in Htg, Hv. by rewrite Htg, Hv.
Qed.
(** *** Two runs of the wrapper in one process *)






End MoreProperties.

(** ** Concrete runs of the further properties *)

(** "Hello world." has no cue; "Set it." has a cue and no target. *)
Lemma parse_skipped_text_only_sets_function_witness :
  parse stub_nlp __init__ "Hello world." =
    set_function __init__ "DefaultWorkflow" /\
  parse stub_nlp __init__ "Set it." = set_function __init__ "DefaultWorkflow".
Proof.
  split.
  - apply (parse_skipped_text_only_sets_function stub_nlp __init__
             "Hello world."). reflexivity.
  - apply (parse_skipped_text_only_sets_function stub_nlp __init__ "Set it.").
    reflexivity.
Defined.

Lemma parse_input_last_declaration_witness :
  inputs (schema (parse stub_nlp __init__
                    "Take an input username. Set result username."))
    !! "username" =
  Some {| type_ := "string"; description := "Input username" |}.
Proof.
  apply (parse_input_last_declaration stub_nlp __init__
           "Take an input username. Set result username."
           [] (stub_span "Take an input username.")
           [stub_span "Set result username."]); reflexivity.
Defined.

(** A parser that knows the input "username" parses a text that does not
    declare it. *)
Lemma parse_keeps_undeclared_inputs_witness :
  inputs (schema (parse stub_nlp
                    (parse stub_nlp __init__ "Take an input username.")
                    "Set alpha one. Set beta two.")) !! "username" =
  inputs (schema (parse stub_nlp __init__ "Take an input username."))
    !! "username".
Proof.
  apply (parse_keeps_undeclared_inputs stub_nlp
           (parse stub_nlp __init__ "Take an input username.")
           "Set alpha one. Set beta two." "username").
  reflexivity.
Defined.

(** A text with a log sentence only leaves the set steps of an earlier
    call as they were. *)
Lemma parse_keeps_payload_of_absent_kind_witness :
  deref (step_templates
           (parse stub_nlp
              (parse stub_nlp __init__ "Set alpha one. Set beta two.")
              "Take an input username. Print the username.")) RSet =
  SetStep {| target := "beta"; value := Lit "two" |}.
Proof.
  rewrite (parse_keeps_payload_of_absent_kind stub_nlp
             (parse stub_nlp __init__ "Set alpha one. Set beta two.")
             "Take an input username. Print the username." RSet);
    reflexivity.
Defined.

Lemma set_steps_read_last_set_sentence_witness :
  exists tg v,
    set_scan (tokens (stub_nlp "Set beta two.")) = (Some tg, Some v) /\
    Forall (fun st =>
              match st with
              | SetStep sp =>
                  sp = {| target := tg;
                          value :=
                            if bool_decide
                                 (v ∈ omap (declared_input stub_nlp)
                                        [stub_span "Set alpha one."])
                            then Get v else Lit v |}
              | _ => True
              end)
           (read_steps (parse stub_nlp __init__ "Set alpha one. Set beta two.")).
Proof.
  apply (set_steps_read_last_set_sentence stub_nlp
           "Set alpha one. Set beta two."
           [stub_span "Set alpha one."] (stub_span "Set beta two.") []);
    reflexivity.
Defined.

Lemma input_description_default_witness :
  description {| type_ := "string"; description := "Input username" |} =
  "Input " +:+ "username".
Proof.
  apply (input_description_default stub_nlp
           (stub_span "Take an input username.") "username"); reflexivity.
Defined.

(** In "Take an input age as int." the last type token is "int". *)
Lemma declaration_type_is_last_type_token_witness :
  exists d,
    declared_entry stub_nlp (stub_span "Take an input age as int.")
      = Some ("age", d) /\
    type_ d = "int".
Proof.
  eexists. split; [reflexivity|].
  apply (proj1 (declaration_type_is_last_type_token stub_nlp
           (stub_span "Take an input age as int.")
           [ tok "Take" "take" "VERB" "ROOT" 0; tok "an" "a" "DET" "det" 3;
             tok "input" "input" "NOUN" "compound" 3;
             tok "age" "age" "NOUN" "oprd" 0; tok "as" "as" "ADP" "prep" 0 ]
           (tok "int" "int" "NOUN" "pobj" 4)
           [ tok "." "." "PUNCT" "punct" 0 ]
           eq_refl eq_refl eq_refl) "age").
  reflexivity.
Defined.

Lemma parse_no_sentence_witness :
  snapshot (parse stub_nlp __init__ "") =
  {| fs_function := "DefaultWorkflow";
     fs_inputs := ∅;
     fs_schema_context := ∅;
     fs_context := ∅;
     fs_steps := [] |}.
Proof. apply (parse_no_sentence stub_nlp ""). reflexivity. Defined.

(** "Set result username.": the cue is "Set", with the noun "result" as
    head; the object is "username". *)
Lemma set_step_takes_last_cue_and_last_object_witness :
  _parse_set_step stub_nlp __init__ (stub_span "Set result username.") =
  (set_templates __init__
     {| tpl_set := {| target := "result"; value := Lit "username" |};
        tpl_assert := tpl_assert (step_templates __init__);
        tpl_log := tpl_log (step_templates __init__);
        tpl_forEach := tpl_forEach (step_templates __init__) |},
   Some RSet).
Proof.
  apply (set_step_takes_last_cue_and_last_object stub_nlp __init__
           (stub_span "Set result username.")
           [] (tok "Set" "set" "NOUN" "compound" 1)
           [ tok "result" "result" "NOUN" "ROOT" 1;
             tok "username" "username" "NOUN" "dobj" 1;
             tok "." "." "PUNCT" "punct" 1 ]
           [ tok "Set" "set" "NOUN" "compound" 1;
             tok "result" "result" "NOUN" "ROOT" 1 ]
           (tok "username" "username" "NOUN" "dobj" 1)
           [ tok "." "." "PUNCT" "punct" 1 ]);
    try reflexivity; discriminate.
Defined.


(** The same two runs, read: the used parser of the process still has its
    own two steps, and each run's schema has the two steps of the text. *)
Example generate_twice_reads :
  read_envelope
    (snd (generate_jsonflow_from_text_in stub_nlp stub_uuid4
            "Set alpha one. Set beta two."
            (snd (generate_jsonflow_from_text_in stub_nlp stub_uuid4
                    "Set alpha one. Set beta two." stub_process))))
    (fst (generate_jsonflow_from_text_in stub_nlp stub_uuid4
            "Set alpha one. Set beta two." stub_process)) =
  Some (snapshot (parse stub_nlp __init__ "Set alpha one. Set beta two.")).
Proof. reflexivity. Qed.

(** ** Properties of the HTTP service *)

Section ApiProperties.

Variable X : Externals.

(** *** Reading a log file *)

Lemma collect_logs_entries before entries rest stop acc :
  map (parse_log_line X) before = map Entry entries ->
  collect_logs X (before ++ rest) stop acc =
  collect_logs X rest stop (acc ++ entries).
Proof.
  revert entries acc.
  induction before as [|line before IH]; intros entries acc H.
  - destruct entries; [|done]. by rewrite app_nil_r.
  - destruct entries as [|e entries]; [done|]. simpl in H.
    injection H as Hline Hrest. simpl. rewrite Hline.
    rewrite (IH entries (acc ++ [e]) Hrest). by rewrite <- app_assoc.
Qed.

(** X16: [read_logs] on an existing file passes over a line that is not
    JSON and goes on with the lines after it, but stops at the first line
    whose JSON does not build a [LogEntry]: it then returns the entries
    read before that line and drops every line after it.  The file system
    is left as it was. *)
Theorem read_logs_bad_lines f w before line after stop entries :
  path_exists X f w = true ->
  read_lines X f w = (before ++ line :: after, stop) ->
  map (parse_log_line X) before = map Entry entries ->
  (parse_log_line X line = JSONDecodeError ->
   read_logs X f w = (collect_logs X after stop entries, w)) /\
  (parse_log_line X line = LineRaises ->
   read_logs X f w = (Ok entries, w)).
Proof.
  intros Hex Hlines Hbefore. unfold read_logs. rewrite Hex, Hlines. simpl.
  rewrite (collect_logs_entries before entries (line :: after) stop []
             Hbefore).
  simpl. split; intros ->; done.
Qed.

(** X17: [get_logs] answers 400, without reading or creating any file,
    for every name other than the two log files; for those two it returns
    exactly the entries [read_logs] returns (the branch for a missing
    file returns the same empty list), and lets through what [read_logs]
    lets through. *)
Theorem get_logs_whitelist f w :
  get_logs X f w =
  if str_in f ["tcc_flow_log.jsonl"; "llm_flow_log.jsonl"]
  then match read_logs X f w with
       | (Ok logs_, w') => (Ok (mkLogsResponse logs_), w')
       | (Raise e, w') => (Raise e, w')
       end
  else (Raise (HTTPException 400
          "Invalid log file. Use 'tcc_flow_log.jsonl' or 'llm_flow_log.jsonl'."),
        w).
Proof.
  unfold get_logs. destruct (str_in f _); [|done]. cbn [negb].
  destruct (read_logs X f w) as [[[|e logs_]|e] w']; cbn [andb]; try done.
  by destruct (path_exists X f w').
Qed.

(** *** Status codes *)


Lemma except_value_error_400_ends {A} (e : Exn) w :
  ends_as_route (fst (except_value_error_400 X (A := A) e w)).
Proof. destruct e; simpl; auto. Qed.

Lemma try_except_400_ends {A} (m : M X A) w :
  ends_as_route (fst (try_except X m (except_value_error_400 X) w)).
Proof.
  unfold try_except. destruct (m w) as [[a|e] w']; [done|].
  apply except_value_error_400_ends.
Qed.

Lemma collect_logs_raises lines stop acc e :
  collect_logs X lines stop acc = Raise e -> is_exception e = false.
Proof.
  revert acc. induction lines as [|line lines IH]; intros acc; simpl.
  - destruct stop as [[| | |msg]|]; try done. by intros [= <-].
  - destruct (parse_log_line X line); try done;
      [apply IH | apply IH | by intros [= <-]].
Qed.

Lemma read_logs_raises f w e w' :
  read_logs X f w = (Raise e, w') -> is_exception e = false.
Proof.
  unfold read_logs. destruct (negb _).
  - destruct (create_empty X f w) as [[[| | |msg]|] w1]; try done.
    + by intros [= <- _].
    + destruct (read_lines X f w1) as [lines stop]. intros [= H _].
      by apply collect_logs_raises in H.
  - destruct (read_lines X f w) as [lines stop]. intros [= H _].
    by apply collect_logs_raises in H.
Qed.

(** X19: a route ends with a response, with an [HTTPException] of status
    400 or 500, or with a [BaseException] that is not an [Exception]
    ([SystemExit], [KeyboardInterrupt]), which no handler catches.  No
    [ValueError] and no other [Exception] raised by the library code
    leaves [execute], [reverse], [reverse_arbitrary], [deploy_shard] or
    [get_logs]; and [read_logs] lets through nothing but such a
    [BaseException]. *)
Theorem routes_end_with_400_or_500 data f w :
  ends_as_route (fst (execute X data w)) /\
  ends_as_route (fst (reverse X data w)) /\
  ends_as_route (fst (reverse_arbitrary X data w)) /\
  ends_as_route (fst (deploy_shard X data w)) /\
  ends_as_route (fst (get_logs X f w)) /\
  match fst (read_logs X f w) with
  | Ok _ => True
  | Raise e => is_exception e = false
  end.
Proof.
  split_and!.
  - apply try_except_400_ends.
  - unfold reverse. destruct (negb _); [simpl; auto|].
    apply try_except_400_ends.
  - unfold reverse_arbitrary. destruct (_ || _); [simpl; auto|].
    apply try_except_400_ends.
  - unfold deploy_shard, try_except.
    destruct (String.eqb _ _); [|simpl; auto].
    unfold bind. destruct (read_logs X _ w) as [[logs_|e] w'] eqn:Hr; [done|].
    apply read_logs_raises in Hr. by destruct e.
  - rewrite get_logs_whitelist. destruct (str_in f _); [|simpl; auto].
    destruct (read_logs X f w) as [[logs_|e] w'] eqn:Hr; [done|].
    apply read_logs_raises in Hr. by destruct e.
  - destruct (read_logs X f w) as [[logs_|e] w'] eqn:Hr; [done|].
    by apply read_logs_raises in Hr.
Qed.

(** *** Validation in [execute] *)

Lemma String_length_zero s : String.length s = 0 -> s = "".
Proof. by destruct s. Qed.

(** X20: [execute] checks the input data before anything else: an empty
    input or one of more than 1024 characters is answered with status 400
    whatever the script and the keys; and with a valid input, a script
    other than "sheeva" (also "aivail") is answered with an empty output
    and no logs, without any call to a flow.  The world is untouched in
    both cases. *)
Theorem execute_input_check data w :
  (ExecuteInput.input_data data = "" \/
   1024 < String.length (ExecuteInput.input_data data) ->
   execute X data w =
     (Raise (HTTPException 400
        "Input data must be non-empty and at most 1024 characters"), w)) /\
  (ExecuteInput.input_data data <> "" ->
   String.length (ExecuteInput.input_data data) <= 1024 ->
   ExecuteInput.script data <> "sheeva" ->
   execute X data w = (Ok (mkExecuteResponse "" []), w)).
Proof.
  split.
  - intros H. unfold execute, try_except.
    assert (negb (truthy (ExecuteInput.input_data data)) ||
            Nat.ltb 1024 (String.length (ExecuteInput.input_data data)) = true)
      as ->; [|done].
    destruct H as [->|H]; [done|].
    apply Nat.ltb_lt in H. rewrite H. apply orb_true_r.
  - intros Hne Hlen Hs. unfold execute, try_except.
    apply truthy_nonempty in Hne. rewrite Hne.
    assert (Nat.ltb 1024 (String.length (ExecuteInput.input_data data)) = false)
      as -> by (apply Nat.ltb_ge; lia).
    apply String.eqb_neq in Hs. by rewrite Hs.
Qed.

(** X21: for a "sheeva" request with valid input data, [execute] checks,
    in this order, the length of the AES key (32), that it is
    hexadecimal, the length of the Ed25519 key (64), that it is
    hexadecimal, and the fee; the first check that fails decides the
    answer: status 400 with the message of that check, or status 500
    when the fee is missing.  No flow is created and the world is
    untouched. *)
Theorem execute_sheeva_checks data w aes ed :
  ExecuteInput.input_data data <> "" ->
  String.length (ExecuteInput.input_data data) <= 1024 ->
  ExecuteInput.script data = "sheeva" ->
  aes = default "" (ExecuteInput.aes_key data) ->
  ed = default "" (ExecuteInput.ed25519_key data) ->
  (String.length aes <> 32 ->
   execute X data w =
     (Raise (HTTPException 400 "AES key must be 32 hex characters"), w)) /\
  (String.length aes = 32 ->
   (forall m, fromhex X aes = inl m ->
    execute X data w =
      (Raise (HTTPException 400 "AES key must be valid hex"), w)) /\
   (forall a, fromhex X aes = inr a ->
    (String.length ed <> 64 ->
     execute X data w =
       (Raise (HTTPException 400 "Ed25519 key must be 64 hex characters"), w)) /\
    (String.length ed = 64 ->
     (forall m, fromhex X ed = inl m ->
      execute X data w =
        (Raise (HTTPException 400 "Ed25519 key must be valid hex"), w)) /\
     (forall e, fromhex X ed = inr e ->
      (ExecuteInput.fee data = None ->
       execute X data w =
         (Raise (HTTPException 500
            ("Server error: " +:+
             "'<' not supported between instances of 'NoneType' and 'int'")),
          w)) /\
      (forall n, ExecuteInput.fee data = Some n -> (n < 1000)%Z ->
       execute X data w =
         (Raise (HTTPException 400 "Fee must be at least 1000"), w)))))).
Proof.
  intros Hne Hlen Hs Haes Hed.
  apply truthy_nonempty in Hne.
  assert (Nat.ltb 1024 (String.length (ExecuteInput.input_data data)) = false)
    as Hlen' by (apply Nat.ltb_ge; lia).
  assert (forall n s, String.length s = S n -> truthy s = true) as Htruthy
    by (intros n [|c s]; [done|by intros _]).
  unfold execute, try_except. rewrite Hne, Hlen', Hs, String.eqb_refl.
  cbn [negb orb].
  unfold execute_sheeva. rewrite <- Haes, <- Hed.
  split.
  - intros H.
    assert (negb (otruthy (ExecuteInput.aes_key data)) ||
            negb (Nat.eqb (String.length aes) 32) = true) as ->; [|done].
    apply Nat.eqb_neq in H. rewrite H. apply orb_true_r.
  - intros H32.
    assert (negb (otruthy (ExecuteInput.aes_key data)) ||
            negb (Nat.eqb (String.length aes) 32) = false) as ->.
    { rewrite H32. simpl. rewrite orb_false_r.
      destruct (ExecuteInput.aes_key data) as [k|]; simpl in *; subst aes;
        [|done]. by rewrite (Htruthy _ _ H32). }
    split.
    + intros m Hm. unfold bind, try_except, of_value_error. by rewrite Hm.
    + intros a Ha. unfold bind at 1. unfold try_except at 1.
      unfold of_value_error at 1. rewrite Ha. cbn [ret].
      split.
      * intros H.
        assert (negb (otruthy (ExecuteInput.ed25519_key data)) ||
                negb (Nat.eqb (String.length ed) 64) = true) as ->; [|done].
        apply Nat.eqb_neq in H. rewrite H. apply orb_true_r.
      * intros H64.
        assert (negb (otruthy (ExecuteInput.ed25519_key data)) ||
                negb (Nat.eqb (String.length ed) 64) = false) as ->.
        { rewrite H64. simpl. rewrite orb_false_r.
          destruct (ExecuteInput.ed25519_key data) as [k|]; simpl in *;
            subst ed; [|done]. by rewrite (Htruthy _ _ H64). }
        split.
        -- intros m Hm. unfold bind, try_except, of_value_error.
           by rewrite Hm.
        -- intros e He. unfold bind at 1. unfold try_except at 1.
           unfold of_value_error at 1. rewrite He. cbn [ret].
           split.
           ++ intros Hfee. unfold bind at 1. by rewrite Hfee.
           ++ intros n Hfee Hn. unfold bind at 1. rewrite Hfee. cbn.
              apply Z.ltb_lt in Hn. by rewrite Hn.
Qed.

(** X22: the answer of [execute] and the world it leaves depend on the
    script, the input data, the target output, the two keys, the keccak
    flag and the fee only.  The entropy and shard fields change nothing:
    the warnings [execute] builds for them are overwritten by the
    hexadecimal result before the response is made. *)
Theorem execute_ignores_warning_fields data data' w :
  same_execute_fields data data' ->
  execute X data w = execute X data' w.
Proof.
  intros (H1 & H2 & H3 & H4 & H5 & H6 & H7).
  unfold execute, execute_sheeva.
  by rewrite H1, H2, H3, H4, H5, H6, H7.
Qed.

End ApiProperties.

(** ** Concrete runs of the HTTP service *)

(** In the first file the line "oops" is passed over; in the second the
    line "[1]" ends the reading and the entry after it is lost. *)
Lemma read_logs_bad_lines_witness :
  read_logs stub_externals "tcc_flow_log.jsonl" stub_world =
    (collect_logs stub_externals ["{b}"; "[1]"; "{c}"] None ["{a}"],
     stub_world) /\
  read_logs stub_externals "llm_flow_log.jsonl" stub_world =
    (Ok ["{a}"; "{b}"], stub_world).
Proof.
  split.
  - apply (read_logs_bad_lines stub_externals "tcc_flow_log.jsonl" stub_world
             ["{a}"] "oops" ["{b}"; "[1]"; "{c}"] None ["{a}"]); reflexivity.
  - apply (read_logs_bad_lines stub_externals "llm_flow_log.jsonl" stub_world
             ["{a}"; "{b}"] "[1]" ["{c}"] None ["{a}"; "{b}"]); reflexivity.
Defined.

(** Both files read: two entries each. *)
Example read_logs_runs :
  fst (read_logs stub_externals "tcc_flow_log.jsonl" stub_world) =
    Ok ["{a}"; "{b}"] /\
  fst (read_logs stub_externals "llm_flow_log.jsonl" stub_world) =
    Ok ["{a}"; "{b}"].
Proof. split; reflexivity. Qed.


Lemma execute_input_check_witness :
  execute stub_externals (stub_request "sheeva" "") stub_world =
    (Raise (HTTPException 400
       "Input data must be non-empty and at most 1024 characters"),
     stub_world) /\
  execute stub_externals (stub_request "aivail" "hello") stub_world =
    (Ok (mkExecuteResponse "" []), stub_world).
Proof.
  split.
  - apply (proj1 (execute_input_check stub_externals
                    (stub_request "sheeva" "") stub_world)).
    left. reflexivity.
  - apply (proj2 (execute_input_check stub_externals
                    (stub_request "aivail" "hello") stub_world)).
    + discriminate.
    + simpl. lia.
    + discriminate.
Defined.

(** A request without keys, and one with both keys and a fee of 999. *)
Lemma execute_sheeva_checks_witness :
  execute stub_externals
    (stub_sheeva_request None None None None (Some 1000%Z)) stub_world =
    (Raise (HTTPException 400 "AES key must be 32 hex characters"),
     stub_world) /\
  execute stub_externals
    (stub_sheeva_request None None (Some stub_aes_key)
       (Some stub_ed25519_key) (Some 999%Z)) stub_world =
    (Raise (HTTPException 400 "Fee must be at least 1000"), stub_world).
Proof.
  split.
  - destruct (execute_sheeva_checks stub_externals
                (stub_sheeva_request None None None None (Some 1000%Z))
                stub_world "" "") as (H & _);
      [discriminate | simpl; lia | reflexivity | reflexivity | reflexivity |].
    apply H. discriminate.
  - destruct (execute_sheeva_checks stub_externals
                (stub_sheeva_request None None (Some stub_aes_key)
                   (Some stub_ed25519_key) (Some 999%Z))
                stub_world stub_aes_key stub_ed25519_key) as (_ & H);
      [discriminate | simpl; lia | reflexivity | reflexivity | reflexivity |].
    destruct (H eq_refl) as (_ & Ha).
    destruct (Ha stub_aes_key eq_refl) as (_ & He).
    destruct (He eq_refl) as (_ & Hf).
    destruct (Hf stub_ed25519_key eq_refl) as (_ & Hfee).
    apply (Hfee 999%Z); [reflexivity|lia].
Defined.

(** The same request with and without a request for entropy commitment
    and shard deployment. *)
Lemma execute_ignores_warning_fields_witness :
  execute stub_externals
    (stub_sheeva_request (Some "1:0.5") (Some true) (Some stub_aes_key)
       (Some stub_ed25519_key) (Some 1000%Z)) stub_world =
  execute stub_externals
    (stub_sheeva_request None None (Some stub_aes_key)
       (Some stub_ed25519_key) (Some 1000%Z)) stub_world.
Proof.
  apply execute_ignores_warning_fields. repeat split.
Defined.

(** The successful run of that request: the output is the hexadecimal
    result alone. *)
Example execute_sheeva_run :
  fst (execute stub_externals
         (stub_sheeva_request (Some "1:0.5") (Some true) (Some stub_aes_key)
            (Some stub_ed25519_key) (Some 1000%Z)) stub_world) =
  Ok (mkExecuteResponse "hello" []).
Proof. reflexivity. Qed.

(** A flow constructor that ends the process: the exception passes both
    [except] clauses of [execute]. *)
Example execute_lets_system_exit_through :
  execute stub_externals_exit
    (stub_sheeva_request None None (Some stub_aes_key)
       (Some stub_ed25519_key) (Some 1000%Z)) stub_world =
  (Raise (BaseException "1"), stub_world).
Proof. reflexivity. Qed.
